(** * MAP adaptation of Gaussian mixture models

    A shallow embedding of [bob::trainer::MAP_GMMTrainer]
    (src/cxx/trainer/src/MAP_GMMTrainer.cc): the constructor,
    [initialization], [setPriorGMM] and [mStep].

    The C++ code computes on [double]s held in blitz arrays.  The embedding
    is written over a carrier [F] with the operations the code uses; the
    carrier of the program is [float], Rocq's primitive IEEE 754 binary64
    numbers (rounding, infinities and NaN included).  What depends only on
    which operations the code applies is proved on any carrier; what depends
    on their values is proved on binary64, from the specification of its
    operations ([SpecFloat]); the value of a finite number [m * 2^e] is
    followed as an integer.

    The last part embeds the rescaling of images of cxx/ip/ip/scale.h on
    the same carrier. *)

From Stdlib Require Import ZArith List Bool Lia Floats.
From Stdlib Require String.
Import ListNotations.

Set Implicit Arguments.
#[local] Open Scope nat_scope.

(** ** The arithmetic of [double] *)

Class DoubleOps (F : Type) : Type := {
  d0 : F;                       (* the literal 0. *)
  d1 : F;                       (* the literal 1 *)
  dadd : F -> F -> F;
  dsub : F -> F -> F;
  dmul : F -> F -> F;
  ddiv : F -> F -> F;
  dltb : F -> F -> bool;        (* operator< *)
  dleb : F -> F -> bool;        (* operator<= *)
  of_int : Z -> F               (* conversion of an integer to double *)
}.

(** The one order fact the proofs on any carrier need: [y <= x] excludes
    [x < y].  It holds on binary64 (where both tests are false on NaN). *)
Class DoubleOrder (F : Type) `{DoubleOps F} : Prop := {
  dleb_not_dltb : forall x y : F, dleb y x = true -> dltb x y = false
}.

Arguments DoubleOrder F {_}.

(** [(int32_t) z]: the low 32 bits of [z], read as a two's complement
    number. *)
Definition int32_cast (z : Z) : Z :=
  ((z + 2 ^ 31) mod 2 ^ 32 - 2 ^ 31)%Z.

Definition float_of_Z (z : Z) : float :=
  match z with
  | Z0 => PrimFloat.zero
  | Zpos _ => PrimFloat.of_uint63 (Uint63.of_Z z)
  | Zneg p => PrimFloat.opp (PrimFloat.of_uint63 (Uint63.of_Z (Zpos p)))
  end.

#[export] Instance Binary64 : DoubleOps float := {|
  d0 := PrimFloat.zero;
  d1 := PrimFloat.one;
  dadd := PrimFloat.add;
  dsub := PrimFloat.sub;
  dmul := PrimFloat.mul;
  ddiv := PrimFloat.div;
  dltb := PrimFloat.ltb;
  dleb := PrimFloat.leb;
  of_int := float_of_Z
|}.

(** ** Arrays, machines, statistics and the trainer *)

Section Trainer.

Context {F : Type} `{DoubleOps F}.

(** A [blitz::Array<double,1>] is a list, a [blitz::Array<double,2>] a list
    of rows.  [get] and [get2] are the element reads [a(i)] and [a(i,j)];
    the code never reads outside [0..K-1] x [0..D-1] when the shapes agree,
    and [d0] stands for a read the C++ leaves undefined. *)
Definition get (a : list F) (i : nat) : F := nth i a d0.
Definition get2 (a : list (list F)) (i j : nat) : F := get (nth i a []) j.

(** An array expression assigned to an array of [len] elements: element [i]
    is the expression at index [i]. *)
Definition tabulate {A : Type} (len : nat) (f : nat -> A) : list A :=
  map f (seq 0 len).

(** [blitz::sum]: accumulation from 0, in index order. *)
Definition sum (a : list F) : F := fold_left dadd a d0.

(** [blitz::pow2]. *)
Definition pow2 (x : F) : F := dmul x x.

(** [bob::machine::GMMStats], as [mStep] reads it: the number of samples
    [T] (an integer), the occupancies [n], and the first and second order
    accumulators. *)
Record GMMStats : Type := {
  ss_T : Z;
  ss_n : list F;
  ss_sumPx : list (list F);
  ss_sumPxx : list (list F)
}.

(** [bob::machine::GMMMachine]: [K = n_gaussians] components over
    [D = n_inputs] dimensions. *)
Record GMMMachine : Type := {
  n_gaussians : nat;
  n_inputs : nat;
  weights : list F;
  means : list (list F);
  variances : list (list F)
}.

(** Modelled from the spec: the setters of GMMMachine (GMMMachine.cc is not
    among the sources) commit the given array to the model and leave the
    other parameters alone. *)
Definition setWeights (gmm : GMMMachine) (w : list F) : GMMMachine :=
  {| n_gaussians := n_gaussians gmm; n_inputs := n_inputs gmm;
     weights := w; means := means gmm; variances := variances gmm |}.

Definition setMeans (gmm : GMMMachine) (m : list (list F)) : GMMMachine :=
  {| n_gaussians := n_gaussians gmm; n_inputs := n_inputs gmm;
     weights := weights gmm; means := m; variances := variances gmm |}.

Definition setVariances (gmm : GMMMachine) (v : list (list F)) : GMMMachine :=
  {| n_gaussians := n_gaussians gmm; n_inputs := n_inputs gmm;
     weights := weights gmm; means := means gmm; variances := v |}.

(** Modelled from the spec: [getMeans(a)] and [getVariances(a)] copy the
    machine's parameters into the caller's [K] x [D] array. *)
Definition getMeans (gmm : GMMMachine) (K D : nat) : list (list F) :=
  tabulate K (fun i => tabulate D (fun j => get2 (means gmm) i j)).

Definition getVariances (gmm : GMMMachine) (K D : nat) : list (list F) :=
  tabulate K (fun i => tabulate D (fun j => get2 (variances gmm) i j)).

(** Modelled from the spec: [GMMStats::resize(K, D)] zeroes the contents. *)
Definition ss_resize (K D : nat) : GMMStats :=
  {| ss_T := 0%Z;
     ss_n := repeat d0 K;
     ss_sumPx := repeat (repeat d0 D) K;
     ss_sumPxx := repeat (repeat d0 D) K |}.

(** The trainer: the configuration inherited from GMMTrainer, the fields of
    MAP_GMMTrainer, and the statistics [m_ss] the E-step leaves behind.
    [m_prior_gmm] is a pointer the trainer does not own: [None] is NULL.
    The [m_cache_*] members are scratch arrays that [mStep] resizes and
    rewrites before each use; they are the local definitions below. *)
Record MAP_GMMTrainer : Type := {
  update_means : bool;
  update_variances : bool;
  update_weights : bool;
  m_mean_var_update_responsibilities_threshold : F;
  relevance_factor : F;
  m_prior_gmm : option GMMMachine;
  m_T3_alpha : F;
  m_T3_adaptation : bool;
  m_ss : GMMStats
}.

(** The constructor (lines 24-29). *)
Definition MAP_GMMTrainer_new (relevance_factor : F)
    (update_means update_variances update_weights : bool)
    (mean_var_update_responsibilities_threshold : F) : MAP_GMMTrainer :=
  {| update_means := update_means;
     update_variances := update_variances;
     update_weights := update_weights;
     m_mean_var_update_responsibilities_threshold :=
       mean_var_update_responsibilities_threshold;
     relevance_factor := relevance_factor;
     m_prior_gmm := None;
     m_T3_alpha := d0;
     m_T3_adaptation := false;
     m_ss := ss_resize 0 0 |}.

Definition with_prior (tr : MAP_GMMTrainer) (p : option GMMMachine)
    : MAP_GMMTrainer :=
  {| update_means := update_means tr;
     update_variances := update_variances tr;
     update_weights := update_weights tr;
     m_mean_var_update_responsibilities_threshold :=
       m_mean_var_update_responsibilities_threshold tr;
     relevance_factor := relevance_factor tr;
     m_prior_gmm := p;
     m_T3_alpha := m_T3_alpha tr;
     m_T3_adaptation := m_T3_adaptation tr;
     m_ss := m_ss tr |}.

Definition with_ss (tr : MAP_GMMTrainer) (ss : GMMStats) : MAP_GMMTrainer :=
  {| update_means := update_means tr;
     update_variances := update_variances tr;
     update_weights := update_weights tr;
     m_mean_var_update_responsibilities_threshold :=
       m_mean_var_update_responsibilities_threshold tr;
     relevance_factor := relevance_factor tr;
     m_prior_gmm := m_prior_gmm tr;
     m_T3_alpha := m_T3_alpha tr;
     m_T3_adaptation := m_T3_adaptation tr;
     m_ss := ss |}.

(** [setPriorGMM] (lines 46-50): the returned flag and the trainer after
    the call. *)
Definition setPriorGMM (tr : MAP_GMMTrainer) (prior_gmm : option GMMMachine)
    : bool * MAP_GMMTrainer :=
  match prior_gmm with
  | None => (false, tr)
  | Some _ => (true, with_prior tr prior_gmm)
  end.

(** How a call ends. *)
Inductive exception : Type := NoPriorGMM.

Inductive outcome : Type :=
  | Returned
  | Thrown (e : exception)
  | NullDereference.     (* [m_prior_gmm->...] on a NULL pointer *)

(** ** mStep (lines 52-157) *)

(** Lines 66-70. *)
Definition m_cache_alpha (tr : MAP_GMMTrainer) (K : nat) : list F :=
  if m_T3_adaptation tr then tabulate K (fun _ => m_T3_alpha tr)
  else tabulate K (fun i =>
         ddiv (get (ss_n (m_ss tr)) i)
              (dadd (get (ss_n (m_ss tr)) i) (relevance_factor tr))).

(** Line 78. *)
Definition m_cache_ml_weights (tr : MAP_GMMTrainer) (K : nat) : list F :=
  tabulate K (fun i =>
    ddiv (get (ss_n (m_ss tr)) i) (of_int (int32_cast (ss_T (m_ss tr))))).

(** Line 85: the blend, before it is scaled. *)
Definition blend_weights (tr : MAP_GMMTrainer) (prior : GMMMachine) (K : nat)
    : list F :=
  tabulate K (fun i =>
    dadd (dmul (get (m_cache_alpha tr K) i) (get (m_cache_ml_weights tr K) i))
         (dmul (dsub d1 (get (m_cache_alpha tr K) i)) (get (weights prior) i))).

(** Line 88. *)
Definition gamma (tr : MAP_GMMTrainer) (prior : GMMMachine) (K : nat) : F :=
  sum (blend_weights tr prior K).

(** Line 89. *)
Definition m_cache_new_weights (tr : MAP_GMMTrainer) (prior : GMMMachine)
    (K : nat) : list F :=
  map (fun w => ddiv w (gamma tr prior K)) (blend_weights tr prior K).

(** The blend of line 85 for one component, with the cached maximum
    likelihood weight of line 78 written out. *)
Definition blend (tr : MAP_GMMTrainer) (prior : GMMMachine) (K k : nat)
    : F :=
  dadd (dmul (get (m_cache_alpha tr K) k)
             (ddiv (get (ss_n (m_ss tr)) k)
                   (of_int (int32_cast (ss_T (m_ss tr))))))
       (dmul (dsub d1 (get (m_cache_alpha tr K) k)) (get (weights prior) k)).

(** The weight as the specification states it, for comparison: the
    maximum likelihood weight is [n[k] / T], on the count [T] itself. *)
Definition stated_blend (tr : MAP_GMMTrainer) (prior : GMMMachine)
    (K k : nat) : F :=
  dadd (dmul (get (m_cache_alpha tr K) k)
             (ddiv (get (ss_n (m_ss tr)) k) (of_int (ss_T (m_ss tr)))))
       (dmul (dsub d1 (get (m_cache_alpha tr K) k)) (get (weights prior) k)).

Definition stated_weight (tr : MAP_GMMTrainer) (prior : GMMMachine)
    (K k : nat) : F :=
  ddiv (stated_blend tr prior K k) (sum (tabulate K (stated_blend tr prior K))).

(** Line 102. *)
Definition m_cache_ml_means (tr : MAP_GMMTrainer) (K D : nat)
    : list (list F) :=
  tabulate K (fun i => tabulate D (fun j =>
    ddiv (get2 (ss_sumPx (m_ss tr)) i j) (get (ss_n (m_ss tr)) i))).

(** Lines 110-118. *)
Definition m_cache_new_means (tr : MAP_GMMTrainer) (prior : GMMMachine)
    (K D : nat) : list (list F) :=
  let m_cache_prior_means := getMeans prior K D in
  tabulate K (fun i =>
    if dltb (get (ss_n (m_ss tr)) i)
            (m_mean_var_update_responsibilities_threshold tr)
    then tabulate D (fun j => get2 m_cache_prior_means i j)
    else tabulate D (fun j =>
           dadd (dmul (get (m_cache_alpha tr K) i)
                      (get2 (m_cache_ml_means tr K D) i j))
                (dmul (dsub d1 (get (m_cache_alpha tr K) i))
                      (get2 m_cache_prior_means i j)))).

(** Line 134. *)
Definition m_cache_Exx (tr : MAP_GMMTrainer) (K D : nat) : list (list F) :=
  tabulate K (fun i => tabulate D (fun j =>
    ddiv (get2 (ss_sumPxx (m_ss tr)) i j) (get (ss_n (m_ss tr)) i))).

(** Lines 143-152; [gmm] is the machine as the variance pass finds it. *)
Definition new_variances (tr : MAP_GMMTrainer) (prior gmm : GMMMachine)
    (K D : nat) : list (list F) :=
  let m_cache_prior_variances := getVariances prior K D in
  let m_cache_means := getMeans gmm K D in
  let m_cache_prior_means := getMeans prior K D in
  tabulate K (fun i =>
    if dltb (get (ss_n (m_ss tr)) i)
            (m_mean_var_update_responsibilities_threshold tr)
    then tabulate D (fun j =>
           dsub (dadd (get2 m_cache_prior_variances i j)
                      (get2 m_cache_prior_means i j))
                (pow2 (get2 m_cache_means i j)))
    else tabulate D (fun j =>
           dsub (dadd (dmul (get (m_cache_alpha tr K) i)
                            (get2 (m_cache_Exx tr K D) i j))
                      (dmul (dsub d1 (get (m_cache_alpha tr K) i))
                            (dadd (get2 m_cache_prior_variances i j)
                                  (get2 m_cache_prior_means i j))))
                (pow2 (get2 m_cache_means i j)))).

(** The three passes, each on the machine the previous one left. *)
Definition weights_pass (tr : MAP_GMMTrainer) (prior gmm : GMMMachine)
    : GMMMachine :=
  if update_weights tr
  then setWeights gmm (m_cache_new_weights tr prior (n_gaussians gmm))
  else gmm.

Definition means_pass (tr : MAP_GMMTrainer) (prior gmm : GMMMachine)
    : GMMMachine :=
  if update_means tr
  then setMeans gmm (m_cache_new_means tr prior (n_gaussians gmm) (n_inputs gmm))
  else gmm.

Definition variances_pass (tr : MAP_GMMTrainer) (prior gmm : GMMMachine)
    : GMMMachine :=
  if update_variances tr
  then setVariances gmm
         (new_variances tr prior gmm (n_gaussians gmm) (n_inputs gmm))
  else gmm.

(** [mStep]: how the call ends, and the machine [gmm] refers to afterwards.
    The prior is an object of its own, distinct from [gmm]. *)
Definition mStep (tr : MAP_GMMTrainer) (gmm : GMMMachine)
    : outcome * GMMMachine :=
  match m_prior_gmm tr with
  | None => (Thrown NoPriorGMM, gmm)
  | Some prior =>
      (Returned,
       variances_pass tr prior (means_pass tr prior (weights_pass tr prior gmm)))
  end.

(** ** initialization (lines 35-44) *)

Definition initialization (tr : MAP_GMMTrainer) (gmm : GMMMachine)
    : outcome * MAP_GMMTrainer * GMMMachine :=
  let K := n_gaussians gmm in
  let D := n_inputs gmm in
  let tr' := with_ss tr (ss_resize K D) in
  match m_prior_gmm tr with
  | None => (NullDereference, tr', gmm)
  | Some prior =>
      let gmm1 := setWeights gmm (weights prior) in
      let gmm2 := setMeans gmm1 (getMeans prior K D) in
      let gmm3 := setVariances gmm2 (getVariances prior K D) in
      (Returned, tr', gmm3)
  end.

End Trainer.

Arguments GMMStats F : clear implicits.
Arguments GMMMachine F : clear implicits.
Arguments MAP_GMMTrainer F : clear implicits.

(** ** Concrete inputs

    One component in one dimension: the prior has weight 1, mean [pm] and
    variance [pv]; the trainer is built by the constructor with all three
    updates on, given the prior by [setPriorGMM], and holds the statistics
    [T], [n], [sumPx], [sumPxx] of an E-step. *)

Section Scenarios.

Context {F : Type} `{DoubleOps F}.

Definition machine1 (w m v : F) : GMMMachine F :=
  {| n_gaussians := 1; n_inputs := 1;
     weights := [w]; means := [[m]]; variances := [[v]] |}.

Definition trainer1 (r threshold : F) (T : Z) (n sumPx sumPxx : F)
    (pm pv : F) : MAP_GMMTrainer F :=
  with_ss
    (snd (setPriorGMM (MAP_GMMTrainer_new r true true true threshold)
                      (Some (machine1 d1 pm pv))))
    {| ss_T := T; ss_n := [n]; ss_sumPx := [[sumPx]];
       ss_sumPxx := [[sumPxx]] |}.

(** Two components in one dimension, prior weights [pw0] and [pw1], prior
    means 0 and variances 1; only the weights are updated. *)
Definition machine2 (w0 w1 : F) : GMMMachine F :=
  {| n_gaussians := 2; n_inputs := 1;
     weights := [w0; w1]; means := [[d0]; [d0]];
     variances := [[d1]; [d1]] |}.

Definition trainer2 (r : F) (T : Z) (n0 n1 : F) (pw0 pw1 : F)
    : MAP_GMMTrainer F :=
  with_ss
    (snd (setPriorGMM (MAP_GMMTrainer_new r false false true d0)
                      (Some (machine2 pw0 pw1))))
    {| ss_T := T; ss_n := [n0; n1]; ss_sumPx := [[d0]; [d0]];
       ss_sumPxx := [[d0]; [d0]] |}.

End Scenarios.

(** Scenario A of the specification, in binary64. *)
Definition scenario_A : MAP_GMMTrainer float :=
  trainer1 16%float 0%float 16 16%float 16%float 32%float 0%float 1%float.

(** Scenario B: as A, with no occupancy; the threshold is 0. *)
Definition scenario_B : MAP_GMMTrainer float :=
  trainer1 16%float 0%float 16 0%float 0%float 0%float 0%float 1%float.

(** No occupancy under a threshold of 1, prior mean 2 and variance 1. *)
Definition scenario_C : MAP_GMMTrainer float :=
  trainer1 16%float 1%float 16 0%float 0%float 0%float 2%float 1%float.

(** [2 * 10^9] samples on one component, with a relevance factor of
    [2^-30]. *)
Definition scenario_R : MAP_GMMTrainer float :=
  trainer1 0x1p-30%float 0%float 2000000000 2e9%float 0%float 0%float
           0%float 1%float.

(** [2^31] samples, all of them on the first of two components. *)
Definition scenario_W : MAP_GMMTrainer float :=
  trainer2 2147483648%float (2 ^ 31) 2147483648%float 0%float
           0.5%float 0.5%float.

(** An occupancy of [+infinity]. *)
Definition scenario_I : MAP_GMMTrainer float :=
  trainer1 16%float 0%float 16 infinity 0%float 0%float 0%float 1%float.

(** Four samples on two components, one on the first and three on the
    second, with a relevance factor of 4. *)
Definition scenario_S : MAP_GMMTrainer float :=
  trainer2 4%float 4 1%float 3%float 0.5%float 0.5%float.

(** ** The order fact on binary64 *)

Lemma SFcompare_antisym (x y : spec_float) :
  SFcompare y x = option_map CompOpp (SFcompare x y).
Proof.
  destruct x as [sx | sx | | sx mx ex], y as [sy | sy | | sy my ey];
    try reflexivity;
    try (destruct sx; reflexivity);
    try (destruct sy; reflexivity);
    try (destruct sx, sy; reflexivity).
  cbn [SFcompare option_map].
  destruct sx, sy; try reflexivity;
    rewrite (Z.compare_antisym ey ex);
    destruct (ey ?= ex)%Z; try reflexivity; cbn [CompOpp];
    rewrite (Pos.compare_cont_antisym mx my Eq); cbn [CompOpp];
    try reflexivity;
    now rewrite CompOpp_involutive.
Qed.

Lemma float_leb_not_ltb (x y : float) :
  PrimFloat.leb y x = true -> PrimFloat.ltb x y = false.
Proof.
  rewrite leb_spec, ltb_spec.
  unfold SFleb, SFltb.
  rewrite (SFcompare_antisym (Prim2SF x) (Prim2SF y)).
  destruct (SFcompare (Prim2SF x) (Prim2SF y)) as [[ | | ] | ]; cbn; congruence.
Qed.

#[export] Instance Binary64_order : DoubleOrder float.
Proof. constructor. exact float_leb_not_ltb. Qed.

(** ** Reading the arrays the passes build *)

Section Arrays.

Context {F : Type} `{DoubleOps F}.

Lemma tabulate_length (A : Type) (len : nat) (f : nat -> A) :
  length (tabulate len f) = len.
Proof.
  unfold tabulate. now rewrite length_map, length_seq.
Qed.

Lemma nth_map_seq (A : Type) (f : nat -> A) (d : A) :
  forall len s i, i < len -> nth i (map f (seq s len)) d = f (s + i).
Proof.
  induction len as [ | len IH]; intros s i Hi; [lia | ].
  destruct i as [ | i]; cbn [seq map nth].
  - now rewrite Nat.add_0_r.
  - rewrite IH by lia. f_equal. lia.
Qed.

Lemma nth_tabulate (A : Type) (len : nat) (f : nat -> A) (d : A) (i : nat) :
  i < len -> nth i (tabulate len f) d = f i.
Proof.
  intros Hi. unfold tabulate. now rewrite nth_map_seq.
Qed.

Lemma get_tabulate (len : nat) (f : nat -> F) (i : nat) :
  i < len -> get (tabulate len f) i = f i.
Proof.
  apply nth_tabulate.
Qed.

Lemma get2_tabulate (K D : nat) (f : nat -> nat -> F) (i j : nat) :
  i < K -> j < D ->
  get2 (tabulate K (fun i => tabulate D (f i))) i j = f i j.
Proof.
  intros Hi Hj. unfold get2.
  rewrite nth_tabulate by assumption. now apply get_tabulate.
Qed.

Lemma get2_getMeans (gmm : GMMMachine F) (K D i j : nat) :
  i < K -> j < D -> get2 (getMeans gmm K D) i j = get2 (means gmm) i j.
Proof.
  intros Hi Hj. unfold getMeans. now rewrite get2_tabulate.
Qed.

Lemma get2_getVariances (gmm : GMMMachine F) (K D i j : nat) :
  i < K -> j < D -> get2 (getVariances gmm K D) i j = get2 (variances gmm) i j.
Proof.
  intros Hi Hj. unfold getVariances. now rewrite get2_tabulate.
Qed.

(** What each pass leaves of the machine. *)

Lemma weights_pass_shape (tr : MAP_GMMTrainer F) (prior gmm : GMMMachine F) :
  n_gaussians (weights_pass tr prior gmm) = n_gaussians gmm /\
  n_inputs (weights_pass tr prior gmm) = n_inputs gmm /\
  means (weights_pass tr prior gmm) = means gmm /\
  variances (weights_pass tr prior gmm) = variances gmm.
Proof.
  unfold weights_pass. destruct (update_weights tr); cbn; auto.
Qed.

Lemma means_pass_shape (tr : MAP_GMMTrainer F) (prior gmm : GMMMachine F) :
  n_gaussians (means_pass tr prior gmm) = n_gaussians gmm /\
  n_inputs (means_pass tr prior gmm) = n_inputs gmm /\
  weights (means_pass tr prior gmm) = weights gmm /\
  variances (means_pass tr prior gmm) = variances gmm.
Proof.
  unfold means_pass. destruct (update_means tr); cbn; auto.
Qed.

Lemma variances_pass_shape (tr : MAP_GMMTrainer F) (prior gmm : GMMMachine F) :
  n_gaussians (variances_pass tr prior gmm) = n_gaussians gmm /\
  n_inputs (variances_pass tr prior gmm) = n_inputs gmm /\
  weights (variances_pass tr prior gmm) = weights gmm /\
  means (variances_pass tr prior gmm) = means gmm.
Proof.
  unfold variances_pass. destruct (update_variances tr); cbn; auto.
Qed.

(** The parameters of the machine after a call that found a prior. *)

Lemma mStep_weights (tr : MAP_GMMTrainer F) (prior gmm : GMMMachine F) :
  m_prior_gmm tr = Some prior ->
  weights (snd (mStep tr gmm)) =
    if update_weights tr
    then m_cache_new_weights tr prior (n_gaussians gmm)
    else weights gmm.
Proof.
  intros Hp. unfold mStep. rewrite Hp. cbn [snd].
  destruct (variances_pass_shape tr prior
              (means_pass tr prior (weights_pass tr prior gmm)))
    as (_ & _ & -> & _).
  destruct (means_pass_shape tr prior (weights_pass tr prior gmm))
    as (_ & _ & -> & _).
  unfold weights_pass. now destruct (update_weights tr).
Qed.

Lemma mStep_means (tr : MAP_GMMTrainer F) (prior gmm : GMMMachine F) :
  m_prior_gmm tr = Some prior ->
  means (snd (mStep tr gmm)) =
    if update_means tr
    then m_cache_new_means tr prior (n_gaussians gmm) (n_inputs gmm)
    else means gmm.
Proof.
  intros Hp. unfold mStep. rewrite Hp. cbn [snd].
  destruct (variances_pass_shape tr prior
              (means_pass tr prior (weights_pass tr prior gmm)))
    as (_ & _ & _ & ->).
  destruct (weights_pass_shape tr prior gmm) as (HK & HD & Hm & _).
  unfold means_pass. rewrite HK, HD.
  destruct (update_means tr); [reflexivity | exact Hm].
Qed.

Lemma mStep_variances (tr : MAP_GMMTrainer F) (prior gmm : GMMMachine F) :
  m_prior_gmm tr = Some prior ->
  variances (snd (mStep tr gmm)) =
    if update_variances tr
    then new_variances tr prior (snd (mStep tr gmm))
           (n_gaussians gmm) (n_inputs gmm)
    else variances gmm.
Proof.
  intros Hp. unfold mStep. rewrite Hp. cbn [snd].
  set (g2 := means_pass tr prior (weights_pass tr prior gmm)).
  assert (HK : n_gaussians g2 = n_gaussians gmm).
  { unfold g2. destruct (means_pass_shape tr prior (weights_pass tr prior gmm))
      as (-> & _). apply weights_pass_shape. }
  assert (HD : n_inputs g2 = n_inputs gmm).
  { unfold g2. destruct (means_pass_shape tr prior (weights_pass tr prior gmm))
      as (_ & -> & _). apply weights_pass_shape. }
  assert (Hv : variances g2 = variances gmm).
  { unfold g2. destruct (means_pass_shape tr prior (weights_pass tr prior gmm))
      as (_ & _ & _ & ->). apply weights_pass_shape. }
  unfold variances_pass.
  destruct (update_variances tr); cbn [variances setVariances].
  - rewrite HK, HD. reflexivity.
  - exact Hv.
Qed.

End Arrays.

(** ** The update equations, on any carrier *)

Section Updates.

Context {F : Type} `{DoubleOps F} `{!DoubleOrder F}.

Lemma m_cache_new_means_length (tr : MAP_GMMTrainer F) (prior : GMMMachine F)
    (K D : nat) :
  length (m_cache_new_means tr prior K D) = K.
Proof.
  unfold m_cache_new_means. cbv zeta. apply tabulate_length.
Qed.

Lemma m_cache_new_means_row (tr : MAP_GMMTrainer F) (prior : GMMMachine F)
    (K D k : nat) :
  k < K -> length (nth k (m_cache_new_means tr prior K D) []) = D.
Proof.
  intros Hk. unfold m_cache_new_means. cbv zeta.
  rewrite nth_tabulate by assumption.
  destruct (dltb _ _); apply tabulate_length.
Qed.

Lemma m_cache_new_means_get2 (tr : MAP_GMMTrainer F) (prior : GMMMachine F)
    (K D k d : nat) :
  k < K -> d < D ->
  get2 (m_cache_new_means tr prior K D) k d =
    if dltb (get (ss_n (m_ss tr)) k)
            (m_mean_var_update_responsibilities_threshold tr)
    then get2 (means prior) k d
    else dadd (dmul (get (m_cache_alpha tr K) k)
                    (ddiv (get2 (ss_sumPx (m_ss tr)) k d)
                          (get (ss_n (m_ss tr)) k)))
              (dmul (dsub d1 (get (m_cache_alpha tr K) k))
                    (get2 (means prior) k d)).
Proof.
  intros Hk Hd. unfold m_cache_new_means, get2 at 1. cbv zeta.
  rewrite nth_tabulate by assumption.
  destruct (dltb _ _); rewrite get_tabulate by assumption.
  - now apply get2_getMeans.
  - rewrite get2_getMeans by assumption.
    unfold m_cache_ml_means. now rewrite get2_tabulate.
Qed.

Lemma new_variances_get2 (tr : MAP_GMMTrainer F) (prior gmm : GMMMachine F)
    (K D k d : nat) :
  k < K -> d < D ->
  get2 (new_variances tr prior gmm K D) k d =
    if dltb (get (ss_n (m_ss tr)) k)
            (m_mean_var_update_responsibilities_threshold tr)
    then dsub (dadd (get2 (variances prior) k d) (get2 (means prior) k d))
              (pow2 (get2 (means gmm) k d))
    else dsub (dadd (dmul (get (m_cache_alpha tr K) k)
                          (ddiv (get2 (ss_sumPxx (m_ss tr)) k d)
                                (get (ss_n (m_ss tr)) k)))
                    (dmul (dsub d1 (get (m_cache_alpha tr K) k))
                          (dadd (get2 (variances prior) k d)
                                (get2 (means prior) k d))))
              (pow2 (get2 (means gmm) k d)).
Proof.
  intros Hk Hd. unfold new_variances, get2 at 1. cbv zeta.
  rewrite nth_tabulate by assumption.
  destruct (dltb _ _); rewrite get_tabulate by assumption;
    rewrite get2_getVariances, !get2_getMeans by assumption.
  - reflexivity.
  - unfold m_cache_Exx. now rewrite get2_tabulate.
Qed.

Lemma get_m_cache_alpha (tr : MAP_GMMTrainer F) (K k : nat) :
  k < K ->
  get (m_cache_alpha tr K) k =
    if m_T3_adaptation tr then m_T3_alpha tr
    else ddiv (get (ss_n (m_ss tr)) k)
              (dadd (get (ss_n (m_ss tr)) k) (relevance_factor tr)).
Proof.
  intros Hk. unfold m_cache_alpha.
  destruct (m_T3_adaptation tr); now rewrite get_tabulate.
Qed.

(** C4. With the mean update enabled, [mStep] commits [K] means of [D]
    entries each: component [k] keeps the prior mean when
    [n[k] < threshold], and otherwise gets
    [alpha[k] * (sumPx[k][d] / n[k]) + (1 - alpha[k]) * prior.mean[k][d]]. *)
Theorem mean_update (tr : MAP_GMMTrainer F) (prior gmm : GMMMachine F) :
  m_prior_gmm tr = Some prior ->
  update_means tr = true ->
  let K := n_gaussians gmm in
  let D := n_inputs gmm in
  let gmm' := snd (mStep tr gmm) in
  length (means gmm') = K /\
  forall k, k < K ->
    length (nth k (means gmm') []) = D /\
    forall d, d < D ->
      get2 (means gmm') k d =
        if dltb (get (ss_n (m_ss tr)) k)
                (m_mean_var_update_responsibilities_threshold tr)
        then get2 (means prior) k d
        else dadd (dmul (get (m_cache_alpha tr K) k)
                        (ddiv (get2 (ss_sumPx (m_ss tr)) k d)
                              (get (ss_n (m_ss tr)) k)))
                  (dmul (dsub d1 (get (m_cache_alpha tr K) k))
                        (get2 (means prior) k d)).
Proof.
  intros Hp Hu K D gmm'. subst gmm'.
  rewrite (mStep_means tr gmm Hp), Hu. fold K D.
  split; [apply m_cache_new_means_length | ].
  intros k Hk. split; [now apply m_cache_new_means_row | ].
  intros d Hd. now apply m_cache_new_means_get2.
Qed.

(** C2. With the variance update enabled, [mStep] sets
    [variance[k][d]] to
    [alpha[k] * (sumPxx[k][d] / n[k])
       + (1 - alpha[k]) * (prior.variance[k][d] + prior.mean[k][d])
       - mean[k][d]^2] when [n[k] >= threshold], and to
    [prior.variance[k][d] + prior.mean[k][d] - mean[k][d]^2] when
    [n[k] < threshold]; [mean] is the mean of the model after the mean pass:
    the new mean when the mean update is enabled, the mean the model came
    with when it is not. *)
Theorem variance_update (tr : MAP_GMMTrainer F) (prior gmm : GMMMachine F) :
  m_prior_gmm tr = Some prior ->
  update_variances tr = true ->
  let K := n_gaussians gmm in
  let D := n_inputs gmm in
  let gmm' := snd (mStep tr gmm) in
  let n := ss_n (m_ss tr) in
  let threshold := m_mean_var_update_responsibilities_threshold tr in
  let alpha := m_cache_alpha tr K in
  means gmm' =
    (if update_means tr then m_cache_new_means tr prior K D else means gmm) /\
  length (variances gmm') = K /\
  forall k d, k < K -> d < D ->
    (dleb threshold (get n k) = true ->
     get2 (variances gmm') k d =
       dsub (dadd (dmul (get alpha k)
                        (ddiv (get2 (ss_sumPxx (m_ss tr)) k d) (get n k)))
                  (dmul (dsub d1 (get alpha k))
                        (dadd (get2 (variances prior) k d)
                              (get2 (means prior) k d))))
            (pow2 (get2 (means gmm') k d))) /\
    (dltb (get n k) threshold = true ->
     get2 (variances gmm') k d =
       dsub (dadd (get2 (variances prior) k d) (get2 (means prior) k d))
            (pow2 (get2 (means gmm') k d))).
Proof.
  intros Hp Hu K D gmm' n threshold alpha.
  split; [apply (mStep_means tr gmm Hp) | ].
  assert (Hv : variances gmm' = new_variances tr prior gmm' K D).
  { subst gmm'. rewrite (mStep_variances tr gmm Hp) at 1. now rewrite Hu. }
  rewrite Hv. split.
  - unfold new_variances. cbv zeta. apply tabulate_length.
  - intros k d Hk Hd. rewrite new_variances_get2 by assumption.
    fold n threshold alpha. split; intros Hc.
    + now rewrite (dleb_not_dltb _ _ Hc).
    + now rewrite Hc.
Qed.

(** C6. Without a prior ([m_prior_gmm] is NULL, which is how the constructor
    leaves it and how a refused [setPriorGMM] keeps it) [mStep] throws
    [NoPriorGMM], and the model is the one it was given: weights, means and
    variances are untouched. *)
Theorem mStep_without_prior (tr : MAP_GMMTrainer F) (gmm : GMMMachine F) :
  m_prior_gmm tr = None ->
  fst (mStep tr gmm) = Thrown NoPriorGMM /\
  snd (mStep tr gmm) = gmm /\
  weights (snd (mStep tr gmm)) = weights gmm /\
  means (snd (mStep tr gmm)) = means gmm /\
  variances (snd (mStep tr gmm)) = variances gmm.
Proof.
  intros Hp. unfold mStep. rewrite Hp. cbn. auto.
Qed.

Lemma MAP_GMMTrainer_new_no_prior (r : F) (um uv uw : bool) (thr : F) :
  m_prior_gmm (MAP_GMMTrainer_new r um uv uw thr) = None.
Proof. reflexivity. Qed.

Lemma setPriorGMM_refused_keeps (tr : MAP_GMMTrainer F) :
  snd (setPriorGMM tr None) = tr.
Proof. reflexivity. Qed.

(** C8. [setPriorGMM] returns [false] exactly on the NULL pointer, and then
    leaves the trainer as it was; on any other pointer it stores it and
    returns [true], and from then on [mStep] returns instead of throwing
    [NoPriorGMM], whatever the statistics and the model. *)
Theorem setPriorGMM_spec (tr : MAP_GMMTrainer F)
    (prior_gmm : option (GMMMachine F)) :
  (fst (setPriorGMM tr prior_gmm) = false <-> prior_gmm = None) /\
  (prior_gmm = None -> snd (setPriorGMM tr prior_gmm) = tr) /\
  (forall g, prior_gmm = Some g ->
     fst (setPriorGMM tr prior_gmm) = true /\
     m_prior_gmm (snd (setPriorGMM tr prior_gmm)) = Some g /\
     forall ss gmm,
       fst (mStep (with_ss (snd (setPriorGMM tr prior_gmm)) ss) gmm)
         = Returned).
Proof.
  destruct prior_gmm as [g | ]; cbn.
  - split; [split; discriminate | ].
    split; [discriminate | ].
    intros g' [= <-]. auto.
  - split; [split; reflexivity | ].
    split; [reflexivity | discriminate].
Qed.

(** C9. Each flag guards its own parameter: with [update_weights] off the
    weights are the ones [mStep] found, with [update_means] off the means,
    with [update_variances] off the variances, whatever the other two
    flags, the statistics and the prior (set or not). *)
Theorem update_flags_independent (tr : MAP_GMMTrainer F)
    (gmm : GMMMachine F) :
  (update_weights tr = false -> weights (snd (mStep tr gmm)) = weights gmm) /\
  (update_means tr = false -> means (snd (mStep tr gmm)) = means gmm) /\
  (update_variances tr = false ->
     variances (snd (mStep tr gmm)) = variances gmm).
Proof.
  destruct (m_prior_gmm tr) as [prior | ] eqn:Hp.
  - rewrite (mStep_weights tr gmm Hp), (mStep_means tr gmm Hp),
      (mStep_variances tr gmm Hp).
    repeat split; intros ->; reflexivity.
  - unfold mStep. rewrite Hp. cbn. auto.
Qed.

(** C1, as the code has it. A component with no occupancy, [n[k] == 0],
    under a threshold above zero takes the low-occupancy branch: with the
    mean update enabled its mean after [mStep] is the prior's mean, whatever
    the relevance factor and the adaptation coefficient. *)
Theorem zero_occupancy_mean (tr : MAP_GMMTrainer F) (prior gmm : GMMMachine F)
    (k d : nat) :
  m_prior_gmm tr = Some prior ->
  update_means tr = true ->
  k < n_gaussians gmm ->
  d < n_inputs gmm ->
  get (ss_n (m_ss tr)) k = d0 ->
  dltb d0 (m_mean_var_update_responsibilities_threshold tr) = true ->
  get2 (means (snd (mStep tr gmm))) k d = get2 (means prior) k d.
Proof.
  intros Hp Hu Hk Hd Hn Ht.
  rewrite (mStep_means tr gmm Hp), Hu.
  rewrite m_cache_new_means_get2 by assumption.
  now rewrite Hn, Ht.
Qed.

(** C7, on the code: [initialization] on a trainer as the constructor
    leaves it (no prior) does not throw [NoPriorGMM]; it resizes the
    statistics and then reads through the NULL pointer. *)
Theorem initialization_without_prior (r : F) (um uv uw : bool) (thr : F)
    (gmm : GMMMachine F) :
  let tr := MAP_GMMTrainer_new r um uv uw thr in
  fst (fst (initialization tr gmm)) = NullDereference /\
  fst (fst (initialization tr gmm)) <> Thrown NoPriorGMM /\
  fst (mStep tr gmm) = Thrown NoPriorGMM.
Proof.
  cbn. repeat split. discriminate.
Qed.

End Updates.

(** ** The weight pass *)

Section WeightPass.

Context {F : Type} `{DoubleOps F}.

Lemma tabulate_ext (A : Type) (len : nat) (f g : nat -> A) :
  (forall i, i < len -> f i = g i) -> tabulate len f = tabulate len g.
Proof.
  intros Hfg. unfold tabulate. apply map_ext_in.
  intros i Hi. apply in_seq in Hi. apply Hfg. lia.
Qed.

Lemma blend_weights_blend (tr : MAP_GMMTrainer F) (prior : GMMMachine F)
    (K : nat) :
  blend_weights tr prior K = tabulate K (blend tr prior K).
Proof.
  unfold blend_weights. apply tabulate_ext. intros i Hi.
  unfold blend, m_cache_ml_weights. now rewrite get_tabulate.
Qed.

Lemma m_cache_new_weights_tabulate (tr : MAP_GMMTrainer F)
    (prior : GMMMachine F) (K : nat) :
  m_cache_new_weights tr prior K =
    tabulate K (fun k => ddiv (blend tr prior K k) (gamma tr prior K)).
Proof.
  unfold m_cache_new_weights. rewrite blend_weights_blend.
  unfold tabulate. now rewrite map_map.
Qed.

(** The committed weights, on any carrier: the blend over the sum of the
    blends. *)
Lemma weight_update_any_carrier (tr : MAP_GMMTrainer F)
    (prior gmm : GMMMachine F) :
  m_prior_gmm tr = Some prior ->
  update_weights tr = true ->
  let K := n_gaussians gmm in
  gamma tr prior K = sum (tabulate K (blend tr prior K)) /\
  length (weights (snd (mStep tr gmm))) = K /\
  forall k, k < K ->
    get (weights (snd (mStep tr gmm))) k =
      ddiv (blend tr prior K k) (gamma tr prior K).
Proof.
  intros Hp Hu K.
  rewrite (mStep_weights tr gmm Hp), Hu. fold K.
  rewrite m_cache_new_weights_tabulate. split; [ | split].
  - unfold gamma. now rewrite blend_weights_blend.
  - apply tabulate_length.
  - intros k Hk. now rewrite get_tabulate.
Qed.

End WeightPass.

Lemma int32_cast_small (z : Z) :
  (- 2 ^ 31 <= z < 2 ^ 31)%Z -> int32_cast z = z.
Proof.
  intros Hz. unfold int32_cast. rewrite Z.mod_small; lia.
Qed.

(** ** The coefficient in the three updates *)

Section Coefficient.

Context {F : Type} `{DoubleOps F}.

(** The coefficient of component [k], as lines 67-70 write it. *)
Definition alpha_k (tr : MAP_GMMTrainer F) (k : nat) : F :=
  if m_T3_adaptation tr then m_T3_alpha tr
  else ddiv (get (ss_n (m_ss tr)) k)
            (dadd (get (ss_n (m_ss tr)) k) (relevance_factor tr)).

Lemma blend_alpha_k (tr : MAP_GMMTrainer F) (prior : GMMMachine F)
    (K k : nat) :
  k < K ->
  blend tr prior K k =
    dadd (dmul (alpha_k tr k) (get (m_cache_ml_weights tr K) k))
         (dmul (dsub d1 (alpha_k tr k)) (get (weights prior) k)).
Proof.
  intros Hk. unfold blend, alpha_k, m_cache_ml_weights.
  now rewrite (get_m_cache_alpha tr Hk), get_tabulate.
Qed.

(** C5. On every call of [mStep] that finds a prior, the adaptation
    coefficient of component [k] is the configured constant [m_T3_alpha]
    when the fixed-coefficient mode is on and
    [n[k] / (n[k] + relevance_factor)] otherwise: this is what the cache
    holds for each of the [K] components, and it is the coefficient in the
    weights, the means and the variances that [mStep] commits. *)
Theorem adaptation_coefficient (tr : MAP_GMMTrainer F)
    (prior gmm : GMMMachine F) :
  m_prior_gmm tr = Some prior ->
  let K := n_gaussians gmm in
  let D := n_inputs gmm in
  let n := ss_n (m_ss tr) in
  let threshold := m_mean_var_update_responsibilities_threshold tr in
  let alpha k :=
    if m_T3_adaptation tr then m_T3_alpha tr
    else ddiv (get n k) (dadd (get n k) (relevance_factor tr)) in
  let w k :=
    dadd (dmul (alpha k) (get (m_cache_ml_weights tr K) k))
         (dmul (dsub d1 (alpha k)) (get (weights prior) k)) in
  let gmm' := snd (mStep tr gmm) in
  (length (m_cache_alpha tr K) = K /\
   forall k, k < K -> get (m_cache_alpha tr K) k = alpha k) /\
  (update_weights tr = true ->
   forall k, k < K ->
     get (weights gmm') k = ddiv (w k) (sum (tabulate K w))) /\
  (update_means tr = true ->
   forall k d, k < K -> d < D ->
     get2 (means gmm') k d =
       if dltb (get n k) threshold
       then get2 (means prior) k d
       else dadd (dmul (alpha k) (ddiv (get2 (ss_sumPx (m_ss tr)) k d) (get n k)))
                 (dmul (dsub d1 (alpha k)) (get2 (means prior) k d))) /\
  (update_variances tr = true ->
   forall k d, k < K -> d < D ->
     get2 (variances gmm') k d =
       if dltb (get n k) threshold
       then dsub (dadd (get2 (variances prior) k d) (get2 (means prior) k d))
                 (pow2 (get2 (means gmm') k d))
       else dsub (dadd (dmul (alpha k)
                             (ddiv (get2 (ss_sumPxx (m_ss tr)) k d) (get n k)))
                       (dmul (dsub d1 (alpha k))
                             (dadd (get2 (variances prior) k d)
                                   (get2 (means prior) k d))))
                 (pow2 (get2 (means gmm') k d))).
Proof.
  intros Hp K D n threshold alpha w gmm'.
  assert (Ha : forall k, k < K -> get (m_cache_alpha tr K) k = alpha k).
  { intros k Hk. apply (get_m_cache_alpha tr Hk). }
  split; [ | split; [ | split]].
  - split; [ | exact Ha].
    unfold m_cache_alpha. destruct (m_T3_adaptation tr); apply tabulate_length.
  - intros Hu k Hk.
    destruct (weight_update_any_carrier tr gmm Hp Hu) as (Hg & _ & Hw).
    fold K in Hg, Hw. subst gmm'. rewrite (Hw k Hk), Hg.
    rewrite (tabulate_ext (blend tr prior K) w)
      by (intros i Hi; apply (blend_alpha_k tr prior Hi)).
    now rewrite (blend_alpha_k tr prior Hk).
  - intros Hu k d Hk Hd. subst gmm'.
    rewrite (mStep_means tr gmm Hp), Hu.
    rewrite m_cache_new_means_get2 by assumption.
    fold K. now rewrite (Ha k Hk).
  - intros Hu k d Hk Hd.
    assert (Hv : variances gmm' = new_variances tr prior gmm' K D).
    { subst gmm'. rewrite (mStep_variances tr gmm Hp) at 1. now rewrite Hu. }
    rewrite Hv, new_variances_get2 by assumption.
    now rewrite (Ha k Hk).
Qed.

End Coefficient.

(** * Binary64: bounds on rounded results

    The weight pass divides by a sum of rounded blends.  What follows derives,
    from the specification of the binary64 operations, the bounds that the
    safety of that division needs: a number of the format that bounds the
    exact result of an operation bounds the rounded result too. *)

Section Binary64Bounds.

Unset Implicit Arguments.

#[local] Open Scope Z_scope.

(** ** Values of binary64 numbers

    A finite binary64 number is [m * 2^e] with [e >= -1074]; products and
    quotients of two of them have exponents above [-2200].  Values are
    compared as integers, scaled by [2^2200]. *)

(** [2^e], scaled. *)
Definition bp (e : Z) : Z := 2 ^ (e + 2200).

(** The value of [m * 2^e], scaled. *)
Definition V (m e : Z) : Z := m * bp e.

Lemma bp_pos (e : Z) : -2200 <= e -> 0 < bp e.
Proof. intros He. unfold bp. apply Z.pow_pos_nonneg; lia. Qed.

Lemma bp_add (e k : Z) : -2200 <= e -> 0 <= k -> bp (e + k) = 2 ^ k * bp e.
Proof.
  intros He Hk. unfold bp.
  replace (e + k + 2200) with (k + (e + 2200)) by lia.
  apply Z.pow_add_r; lia.
Qed.

Lemma bp_le (e1 e2 : Z) : -2200 <= e1 -> e1 <= e2 -> bp e1 <= bp e2.
Proof. intros H1 H2. unfold bp. apply Z.pow_le_mono_r; lia. Qed.

Lemma bp_lt (e1 e2 : Z) : -2200 <= e1 -> e1 < e2 -> bp e1 < bp e2.
Proof. intros H1 H2. unfold bp. apply Z.pow_lt_mono_r; lia. Qed.

Lemma bp_mul (e1 e2 : Z) :
  -2200 <= e1 -> -2200 <= e2 -> -2200 <= e1 + e2 ->
  bp e1 * bp e2 = bp (e1 + e2) * bp 0.
Proof.
  intros H1 H2 H12. unfold bp. rewrite <- !Z.pow_add_r by lia.
  f_equal. lia.
Qed.

Lemma V_shift (m e k : Z) :
  -2200 <= e -> 0 <= k -> V m (e + k) = V (m * 2 ^ k) e.
Proof. intros He Hk. unfold V. rewrite bp_add by assumption. ring. Qed.

Lemma bp_split (e1 e2 : Z) :
  -2200 <= e1 -> e1 <= e2 -> bp e2 = 2 ^ (e2 - e1) * bp e1.
Proof.
  intros H1 H2. rewrite <- bp_add by lia. f_equal. lia.
Qed.

#[global] Opaque bp.

Lemma pow2_pos (k : Z) : 0 <= k -> 0 < 2 ^ k.
Proof. intros Hk. apply Z.pow_pos_nonneg; lia. Qed.

(** ** Digits *)

(** [digits2_pos p] is the number of bits of [p]. *)
Lemma digits2_pos_bounds (p : positive) :
  2 ^ (Zpos (digits2_pos p) - 1) <= Zpos p < 2 ^ Zpos (digits2_pos p).
Proof.
  induction p as [p IH | p IH | ]; cbn [digits2_pos].
  - rewrite Pos2Z.inj_succ, (Pos2Z.inj_xI p).
    replace (Z.succ (Zpos (digits2_pos p)) - 1)
      with (Z.succ (Zpos (digits2_pos p) - 1)) by lia.
    rewrite !Z.pow_succ_r by lia.
    destruct IH as [IH1 IH2]. revert IH1 IH2.
    generalize (2 ^ (Zpos (digits2_pos p) - 1)) (2 ^ Zpos (digits2_pos p)).
    intros; lia.
  - rewrite Pos2Z.inj_succ, (Pos2Z.inj_xO p).
    replace (Z.succ (Zpos (digits2_pos p)) - 1)
      with (Z.succ (Zpos (digits2_pos p) - 1)) by lia.
    rewrite !Z.pow_succ_r by lia.
    destruct IH as [IH1 IH2]. revert IH1 IH2.
    generalize (2 ^ (Zpos (digits2_pos p) - 1)) (2 ^ Zpos (digits2_pos p)).
    intros; lia.
  - change (2 ^ (1 - 1) <= 1 < 2 ^ 1). cbn. lia.
Qed.

Lemma Zdigits2_bounds (m : Z) :
  0 < m -> 1 <= Zdigits2 m /\ 2 ^ (Zdigits2 m - 1) <= m < 2 ^ Zdigits2 m.
Proof.
  destruct m as [ | p | p]; intros Hm; try lia.
  cbn [Zdigits2]. split; [lia | apply digits2_pos_bounds].
Qed.

Lemma Zdigits2_nonneg (m : Z) : 0 <= Zdigits2 m.
Proof. destruct m; cbn [Zdigits2]; lia. Qed.

Lemma Zdigits2_le (m k : Z) : 0 <= k -> m < 2 ^ k -> 0 <= m -> Zdigits2 m <= k.
Proof.
  intros Hk Hlt Hm.
  destruct (Z.eq_dec m 0) as [-> | Hnz]; [cbn; lia | ].
  destruct (@Zdigits2_bounds m ltac:(lia)) as [H1 [Hlo _]].
  destruct (Z.le_gt_cases (Zdigits2 m) k) as [ | Hgt]; [assumption | ].
  assert (2 ^ k <= 2 ^ (Zdigits2 m - 1)) by (apply Z.pow_le_mono_r; lia).
  lia.
Qed.

Lemma Zdigits2_ge (m k : Z) : 0 <= k -> 2 ^ k <= m -> k + 1 <= Zdigits2 m.
Proof.
  intros Hk Hle.
  pose proof (pow2_pos _ Hk).
  destruct (@Zdigits2_bounds m ltac:(lia)) as [H1 [_ Hhi]].
  destruct (Z.le_gt_cases (k + 1) (Zdigits2 m)) as [ | Hgt]; [assumption | ].
  assert (2 ^ Zdigits2 m <= 2 ^ k) by (apply Z.pow_le_mono_r; lia).
  lia.
Qed.

(** ** The format *)

Lemma fexp_eq (x : Z) : fexp prec emax x = Z.max (x - 53) (-1074).
Proof. reflexivity. Qed.

Lemma fexp_mono (x y : Z) : x <= y -> fexp prec emax x <= fexp prec emax y.
Proof. rewrite !fexp_eq. lia. Qed.

(** ** Shifting the mantissa to the right *)

(** [iter_pos] iterates [Pos.to_nat p] times. *)
Lemma iter_pos_nat (A : Type) (f : A -> A) (p : positive) (x : A) :
  iter_pos f p x = Nat.iter (Pos.to_nat p) f x.
Proof.
  revert x. induction p as [p IH | p IH | ]; intros x; cbn [iter_pos].
  - rewrite !IH, Pos2Nat.inj_xI.
    replace (S (2 * Pos.to_nat p))%nat
      with (Pos.to_nat p + S (Pos.to_nat p))%nat by lia.
    rewrite Nat.iter_add, Nat.iter_succ_r. reflexivity.
  - rewrite !IH, Pos2Nat.inj_xO.
    replace (2 * Pos.to_nat p)%nat
      with (Pos.to_nat p + Pos.to_nat p)%nat by lia.
    rewrite Nat.iter_add. reflexivity.
  - reflexivity.
Qed.

(** One step halves a non-negative mantissa and records the bit that
    left. *)
Lemma shr_1_spec (m : Z) (r s : bool) :
  0 <= m ->
  shr_1 {| shr_m := m; shr_r := r; shr_s := s |}
    = {| shr_m := Z.div2 m; shr_r := Z.odd m; shr_s := r || s |}.
Proof.
  destruct m as [ | [p | p | ] | p]; intros Hm; try lia; reflexivity.
Qed.

Lemma iter_shr_1_m (k : nat) (mrs : shr_record) :
  0 <= shr_m mrs ->
  0 <= shr_m (Nat.iter k shr_1 mrs) /\
  shr_m (Nat.iter k shr_1 mrs) = shr_m mrs / 2 ^ Z.of_nat k.
Proof.
  intros Hm. induction k as [ | k [IH0 IH]].
  - change (Nat.iter 0 shr_1 mrs) with mrs. cbn [Z.of_nat].
    rewrite Z.pow_0_r, Z.div_1_r.
    split; [assumption | reflexivity].
  - rewrite Nat.iter_succ. destruct (Nat.iter k shr_1 mrs) as [m r s].
    cbn [shr_m] in IH0, IH. rewrite shr_1_spec by assumption. cbn [shr_m].
    pose proof (@pow2_pos (Z.of_nat k) ltac:(lia)) as HP.
    rewrite Z.div2_div, Nat2Z.inj_succ, Z.pow_succ_r by lia.
    rewrite (Z.mul_comm 2), <- Z.div_div, <- IH by lia.
    split; [ | reflexivity].
    apply Z.div_pos; lia.
Qed.

(** From an exact mantissa, the record after [k] steps locates the part
    that was shifted out. *)
Lemma iter_shr_1_exact (k : nat) (m0 : Z) :
  0 <= m0 ->
  let R := Nat.iter k shr_1 {| shr_m := m0; shr_r := false; shr_s := false |} in
  exists t,
    0 <= t < 2 ^ Z.of_nat k /\
    2 * m0 = 2 * shr_m R * 2 ^ Z.of_nat k
             + (if shr_r R then 2 ^ Z.of_nat k else 0) + t /\
    (shr_s R = false <-> t = 0) /\
    0 <= shr_m R.
Proof.
  intros Hm. induction k as [ | k IH].
  - cbn zeta.
    change (Nat.iter 0 shr_1 ?x) with x. cbn [shr_m shr_r shr_s Z.of_nat].
    exists 0.
    rewrite Z.pow_0_r. repeat split; lia.
  - cbn zeta in *. rewrite Nat.iter_succ.
    destruct (Nat.iter k shr_1 _) as [m r s].
    cbn [shr_m shr_r shr_s] in IH.
    destruct IH as (t & Ht & Heq & Hs & Hm').
    rewrite shr_1_spec by assumption. cbn [shr_m shr_r shr_s].
    rewrite Nat2Z.inj_succ, Z.pow_succ_r by lia.
    pose proof (@pow2_pos (Z.of_nat k) ltac:(lia)) as HP.
    set (P := 2 ^ Z.of_nat k) in *.
    pose proof (Z.div2_odd m) as Hdiv.
    exists ((if r then P else 0) + t).
    assert (Hm2 : 0 <= Z.div2 m) by (rewrite Z.div2_div; apply Z.div_pos; lia).
    repeat split.
    + destruct r; lia.
    + destruct r; lia.
    + rewrite Hdiv in Heq at 1. destruct (Z.odd m); cbn [Z.b2z] in Heq; nia.
    + intros Hrs. apply orb_false_iff in Hrs. destruct Hrs as [-> Hs'].
      apply Hs in Hs'. lia.
    + intros Ht0. destruct r; [lia | ]. cbn [orb]. apply Hs. lia.
    + assumption.
Qed.

Lemma shr_m_of_loc (m : Z) (l : location) : shr_m (shr_record_of_loc m l) = m.
Proof. destruct l as [ | [ | | ]]; reflexivity. Qed.

(** [shr_fexp] when the mantissa has digits enough: the result is on the
    exponent of the format, the mantissa is truncated. *)
Lemma shr_fexp_spec (m e : Z) (l : location) :
  0 <= m ->
  let n := fexp prec emax (Zdigits2 m + e) - e in
  0 <= n ->
  snd (shr_fexp prec emax m e l) = e + n /\
  0 <= shr_m (fst (shr_fexp prec emax m e l)) /\
  shr_m (fst (shr_fexp prec emax m e l)) = m / 2 ^ n /\
  (l = loc_Exact ->
   exists t,
     0 <= t < 2 ^ n /\
     2 * m = 2 * shr_m (fst (shr_fexp prec emax m e l)) * 2 ^ n
             + (if shr_r (fst (shr_fexp prec emax m e l)) then 2 ^ n else 0)
             + t /\
     (shr_s (fst (shr_fexp prec emax m e l)) = false <-> t = 0)).
Proof.
  intros Hm n Hn. unfold shr_fexp. fold n. unfold shr.
  destruct n as [ | p | p] eqn:En; try lia.
  - cbn [fst snd]. rewrite shr_m_of_loc, Z.div_1_r.
    repeat split; try lia.
    intros ->. cbn [shr_record_of_loc shr_m shr_r shr_s]. exists 0.
    repeat split; lia.
  - cbn [fst snd]. rewrite iter_pos_nat.
    assert (Hk : Z.of_nat (Pos.to_nat p) = Zpos p) by lia.
    destruct (@iter_shr_1_m (Pos.to_nat p) (shr_record_of_loc m l))
      as [H0 H1]; [rewrite shr_m_of_loc; assumption | ].
    rewrite shr_m_of_loc, Hk in H1.
    repeat split; try assumption.
    intros ->. cbn [shr_record_of_loc].
    destruct (@iter_shr_1_exact (Pos.to_nat p) m Hm) as (t & Ht & Heq & Hs & _).
    rewrite Hk in Ht, Heq. exists t.
    split; [assumption | split; [assumption | exact Hs]].
Qed.

(** ** Cells of the format

    [cellp m e]: [m * 2^e] with [e] the exponent the format gives to
    numbers of that size.  A number [mc * 2^ec] with a mantissa of 53 bits
    at most and [ec >= -1074] never lies strictly inside a cell. *)

Definition cellp (m e : Z) : Prop :=
  -1074 <= e /\ 0 <= m < 2 ^ 53 /\ (-1074 < e -> 2 ^ 52 <= m).

(** The mantissa has digits enough for [shr_fexp] to shift it to the
    right, or not at all. *)
Definition PRE (m e : Z) : Prop := 0 <= fexp prec emax (Zdigits2 m + e) - e.

(** No number of the format lies strictly inside a cell. *)
Lemma cell_gap (m e mc ec : Z) :
  cellp m e -> 0 <= mc < 2 ^ 53 -> -1074 <= ec ->
  V m e < V mc ec -> V (m + 1) e <= V mc ec.
Proof.
  intros (He & Hm & Hn) Hmc Hec Hlt.
  destruct (Z.le_gt_cases e ec) as [Hle | Hgt].
  - assert (HV : V mc ec = V (mc * 2 ^ (ec - e)) e).
    { rewrite <- V_shift by lia. f_equal. lia. }
    rewrite HV in *.
    pose proof (@bp_pos e ltac:(lia)) as HP.
    unfold V in *.
    assert (m < mc * 2 ^ (ec - e)).
    { apply (Z.mul_lt_mono_pos_r (bp e)); assumption. }
    apply Z.mul_le_mono_nonneg_r; lia.
  - exfalso.
    assert (HV : V m e = V (m * 2 ^ (e - ec)) ec).
    { rewrite <- V_shift by lia. f_equal. lia. }
    rewrite HV in Hlt.
    pose proof (@bp_pos ec ltac:(lia)) as HP.
    assert (HK : 2 ^ 1 <= 2 ^ (e - ec)) by (apply Z.pow_le_mono_r; lia).
    change (2 ^ 1) with 2 in HK.
    specialize (Hn ltac:(lia)).
    change (2 ^ 53) with (2 * 2 ^ 52) in Hmc.
    unfold V in Hlt.
    assert (m * 2 ^ (e - ec) < mc).
    { apply (Z.mul_lt_mono_pos_r (bp ec)); assumption. }
    nia.
Qed.

(** [shr_fexp] ends on a cell that holds the number it was given, and
    an exact number below the middle of that cell is rounded down. *)
Lemma shr_fexp_cell (m e : Z) (l : location) :
  0 <= m -> PRE m e -> -2200 <= e ->
  let m' := shr_m (fst (shr_fexp prec emax m e l)) in
  let e' := snd (shr_fexp prec emax m e l) in
  cellp m' e' /\ e <= e' /\
  V m' e' <= V m e /\ V (m + 1) e <= V (m' + 1) e' /\
  (l = loc_Exact -> 2 * V m e < 2 * V m' e' + bp e' ->
   round_nearest_even m'
     (loc_of_shr_record (fst (shr_fexp prec emax m e l))) = m').
Proof.
  intros Hm Hpre He m' e'.
  destruct (@shr_fexp_spec m e l Hm Hpre) as (E' & Hm0 & Em' & Hex).
  fold m' in Hm0, Em', Hex. fold e' in E'.
  set (n := fexp prec emax (Zdigits2 m + e) - e) in *.
  unfold PRE in Hpre. fold n in Hpre.
  pose proof (@pow2_pos n Hpre) as HN.
  pose proof (@bp_pos e He) as HP.
  pose proof (Z.div_mod m (2 ^ n) ltac:(lia)) as Hdm.
  pose proof (Z.mod_pos_bound m (2 ^ n) HN) as Hrem.
  rewrite <- Em' in Hdm.
  assert (Efe : e' = Z.max (Zdigits2 m + e - 53) (-1074)).
  { rewrite E'. unfold n. rewrite fexp_eq. lia. }
  assert (Hcell : cellp m' e').
  { unfold cellp. split; [lia | ]. split.
    - split; [assumption | ].
      rewrite Em'. apply Z.div_lt_upper_bound; [assumption | ].
      destruct (Z.eq_dec m 0) as [-> | Hnz].
      { pose proof (@pow2_pos 53 ltac:(lia)). nia. }
      destruct (@Zdigits2_bounds m ltac:(lia)) as [Hd1 [_ Hhi]].
      rewrite <- Z.pow_add_r by lia.
      assert (2 ^ Zdigits2 m <= 2 ^ (n + 53))
        by (apply Z.pow_le_mono_r; lia).
      lia.
    - intros Hgt.
      destruct (Z.eq_dec m 0) as [-> | Hnz].
      { cbn [Zdigits2] in Efe. lia. }
      destruct (@Zdigits2_bounds m ltac:(lia)) as [Hd1 [Hlo _]].
      rewrite Em'. apply Z.div_le_lower_bound; [assumption | ].
      rewrite <- Z.pow_add_r by lia.
      replace (n + 52) with (Zdigits2 m - 1) by lia. assumption. }
  split; [assumption | ].
  split; [lia | ].
  rewrite E'. rewrite !V_shift by lia. unfold V.
  split; [nia | ]. split; [nia | ].
  intros -> Hlt.
  destruct (Hex eq_refl) as (t & Ht & Heq & Hs).
  rewrite bp_add in Hlt by lia.
  destruct (fst (shr_fexp prec emax m e loc_Exact)) as [m2 r s] eqn:ER.
  cbn [shr_m shr_r shr_s] in *. subst m'.
  destruct r.
  - exfalso. nia.
  - destruct s; reflexivity.
Qed.

Lemma round_nearest_even_cases (m : Z) (l : location) :
  round_nearest_even m l = m \/ round_nearest_even m l = m + 1.
Proof.
  destruct l as [ | [ | | ]]; cbn [round_nearest_even]; auto.
  destruct (Z.even m); auto.
Qed.

(** The rounded mantissa can be passed to [shr_fexp] again. *)
Lemma cell_PRE (m e m1 : Z) :
  cellp m e -> m1 = m \/ m1 = m + 1 -> PRE m1 e.
Proof.
  intros (He & Hm & Hn) Hm1. unfold PRE. rewrite fexp_eq.
  destruct (Z.eq_dec e (-1074)) as [-> | Hne]; [lia | ].
  specialize (Hn ltac:(lia)).
  assert (2 ^ 52 <= m1) by lia.
  pose proof (@Zdigits2_ge m1 52 ltac:(lia) ltac:(assumption)). lia.
Qed.

Lemma round_aux_unfold (sx : bool) (mx ex : Z) (lx : location) :
  binary_round_aux prec emax sx mx ex lx =
  let R1 := shr_fexp prec emax mx ex lx in
  let m1 := round_nearest_even (shr_m (fst R1)) (loc_of_shr_record (fst R1)) in
  let R2 := shr_fexp prec emax m1 (snd R1) loc_Exact in
  match shr_m (fst R2) with
  | 0 => S754_zero sx
  | Zpos m => if snd R2 <=? 971 then S754_finite sx m (snd R2)
              else S754_infinity sx
  | Zneg _ => S754_nan
  end.
Proof.
  unfold binary_round_aux.
  destruct (shr_fexp prec emax mx ex lx) as [R1 e1]. cbn [fst snd].
  destruct (shr_fexp prec emax _ e1 loc_Exact) as [R2 e2]. reflexivity.
Qed.

(** The two stages of [binary_round_aux]. *)
Lemma round_aux_stages (sx : bool) (mx ex : Z) (lx : location) :
  0 <= mx -> PRE mx ex -> -2200 <= ex ->
  exists m' e' m1 m'' e'',
    cellp m' e' /\ V m' e' <= V mx ex /\ V (mx + 1) ex <= V (m' + 1) e' /\
    (m1 = m' \/ m1 = m' + 1) /\
    (lx = loc_Exact -> 2 * V mx ex < 2 * V m' e' + bp e' -> m1 = m') /\
    cellp m'' e'' /\ V m'' e'' <= V m1 e' /\ V (m1 + 1) e' <= V (m'' + 1) e'' /\
    binary_round_aux prec emax sx mx ex lx =
      match m'' with
      | 0 => S754_zero sx
      | Zpos m => if e'' <=? 971 then S754_finite sx m e''
                  else S754_infinity sx
      | Zneg _ => S754_nan
      end.
Proof.
  intros Hm Hpre He. rewrite round_aux_unfold. cbv zeta.
  destruct (@shr_fexp_cell mx ex lx Hm Hpre He)
    as (Hc1 & Hee & Hlo & Hhi & Hdown).
  set (R1 := shr_fexp prec emax mx ex lx) in *.
  set (m1 := round_nearest_even (shr_m (fst R1)) (loc_of_shr_record (fst R1)))
    in *.
  assert (Hm1 : m1 = shr_m (fst R1) \/ m1 = shr_m (fst R1) + 1)
    by apply round_nearest_even_cases.
  assert (Hm1' : 0 <= m1) by (destruct Hc1 as (_ & ? & _); lia).
  destruct (@shr_fexp_cell m1 (snd R1) loc_Exact Hm1'
              (cell_PRE _ _ _ Hc1 Hm1) ltac:(lia))
    as (Hc2 & _ & Hlo2 & Hhi2 & _).
  exists (shr_m (fst R1)), (snd R1), m1,
    (shr_m (fst (shr_fexp prec emax m1 (snd R1) loc_Exact))),
    (snd (shr_fexp prec emax m1 (snd R1) loc_Exact)).
  repeat split; try assumption; try apply Hc1; try apply Hc2.
Qed.

(** ** Non-negative numbers and their values

    [nn z]: [z] is a zero, a positive number of the format, or [+infinity];
    [sval z] is its value, [2^1024] standing for [+infinity]. *)

Definition nn (z : spec_float) : Prop :=
  match z with
  | S754_zero _ => True
  | S754_infinity false => True
  | S754_finite false m e => cellp (Zpos m) e /\ e <= 971
  | _ => False
  end.

Definition sval (z : spec_float) : Z :=
  match z with
  | S754_finite false m e => V (Zpos m) e
  | S754_infinity false => bp 1024
  | _ => 0
  end.

Lemma bp_1024 : bp 1024 = 2 ^ 52 * bp 972.
Proof. apply (@bp_split 972 1024); lia. Qed.

Lemma bp_1024' : bp 1024 = 2 ^ 53 * bp 971.
Proof. apply (@bp_split 971 1024); lia. Qed.

Lemma V_below_top (m e : Z) :
  0 <= m < 2 ^ 53 -> -2200 <= e <= 971 -> V m e < bp 1024.
Proof.
  intros Hm He. rewrite bp_1024'. unfold V.
  pose proof (@bp_le e 971 ltac:(lia) ltac:(lia)).
  pose proof (@bp_pos e ltac:(lia)). nia.
Qed.

Lemma sval_nonneg (z : spec_float) : nn z -> 0 <= sval z.
Proof.
  destruct z as [s | [ | ] | | [ | ] m e]; cbn [nn sval]; try lia.
  - intros _. pose proof (@bp_pos 1024 ltac:(lia)). lia.
  - intros [(He & _) _]. unfold V. pose proof (@bp_pos e ltac:(lia)). nia.
Qed.

Lemma sval_le_top (z : spec_float) : nn z -> sval z <= bp 1024.
Proof.
  destruct z as [s | [ | ] | | [ | ] m e]; cbn [nn sval]; try lia;
    try (intros _; pose proof (@bp_pos 1024 ltac:(lia)); lia).
  intros [(He & Hm & _) He']. apply Z.lt_le_incl, V_below_top; lia.
Qed.

(** What [binary_round_aux] returns for the cell it ends on. *)
Definition rounded (m e : Z) : spec_float :=
  match m with
  | 0 => S754_zero false
  | Zpos p => if e <=? 971 then S754_finite false p e else S754_infinity false
  | Zneg _ => S754_nan
  end.

Lemma rounded_form (m e : Z) :
  cellp m e ->
  nn (rounded m e) /\
  (sval (rounded m e) = V m e \/
   (sval (rounded m e) = bp 1024 /\ bp 1024 <= V m e)).
Proof.
  intros Hc. pose proof Hc as (He & Hm & Hn). unfold rounded.
  destruct m as [ | p | p]; try lia.
  - cbn [nn sval]. split; [exact I | left]. unfold V. lia.
  - destruct (Z.leb_spec e 971) as [Hle | Hgt]; cbn [nn sval].
    + split; [split; assumption | left; reflexivity].
    + split; [exact I | right]. split; [reflexivity | ].
      specialize (Hn ltac:(lia)). rewrite bp_1024. unfold V.
      pose proof (@bp_le 972 e ltac:(lia) ltac:(lia)).
      pose proof (@bp_pos 972 ltac:(lia)). nia.
Qed.

Lemma round_aux_result (mx ex : Z) (lx : location) :
  0 <= mx -> PRE mx ex -> -2200 <= ex ->
  exists m' e' m1 m'' e'',
    cellp m' e' /\ V m' e' <= V mx ex /\ V (mx + 1) ex <= V (m' + 1) e' /\
    (m1 = m' \/ m1 = m' + 1) /\
    (lx = loc_Exact -> 2 * V mx ex < 2 * V m' e' + bp e' -> m1 = m') /\
    cellp m'' e'' /\ V m'' e'' <= V m1 e' /\ V (m1 + 1) e' <= V (m'' + 1) e'' /\
    binary_round_aux prec emax false mx ex lx = rounded m'' e''.
Proof. intros. now apply round_aux_stages. Qed.

Lemma V_mono (m1 m2 e : Z) : -2200 <= e -> m1 <= m2 -> V m1 e <= V m2 e.
Proof.
  intros He Hm. unfold V. pose proof (@bp_pos e He).
  apply Z.mul_le_mono_nonneg_r; lia.
Qed.

Lemma V_succ (m e : Z) : V (m + 1) e = V m e + bp e.
Proof. unfold V. ring. Qed.

(** A number of the format below the exact result is below the rounded
    one. *)
Lemma round_low (mx ex : Z) (lx : location) (mc ec : Z) :
  0 <= mx -> PRE mx ex -> -2200 <= ex ->
  0 < mc < 2 ^ 53 -> -1074 <= ec <= 971 ->
  V mc ec < V (mx + 1) ex ->
  nn (binary_round_aux prec emax false mx ex lx) /\
  V mc ec <= sval (binary_round_aux prec emax false mx ex lx).
Proof.
  intros Hm Hpre He Hmc Hec Hlt.
  destruct (@round_aux_result mx ex lx Hm Hpre He)
    as (m' & e' & m1 & m'' & e'' & Hc1 & Hlo1 & Hhi1 & Hm1 & _ & Hc2 & Hlo2
        & Hhi2 & ->).
  destruct (rounded_form _ _ Hc2) as [Hnn Hv]. split; [assumption | ].
  assert (H1 : V mc ec <= V m' e').
  { destruct (Z.le_gt_cases (V mc ec) (V m' e')) as [ | Hgt]; [assumption | ].
    pose proof (@cell_gap m' e' mc ec Hc1 ltac:(lia) ltac:(lia) Hgt). lia. }
  assert (H2 : V m' e' <= V m1 e').
  { apply V_mono; [destruct Hc1; lia | lia]. }
  assert (H3 : V mc ec <= V m'' e'').
  { destruct (Z.le_gt_cases (V mc ec) (V m'' e'')) as [ | Hgt]; [assumption | ].
    pose proof (@cell_gap m'' e'' mc ec Hc2 ltac:(lia) ltac:(lia) Hgt).
    rewrite V_succ in Hhi2.
    pose proof (@bp_pos e' ltac:(destruct Hc1; lia)). lia. }
  pose proof (@V_below_top mc ec ltac:(lia) ltac:(lia)).
  destruct Hv as [-> | [-> _]]; lia.
Qed.

(** A number of the format above the exact result is above the rounded
    one. *)
Lemma round_high (mx ex : Z) (lx : location) (mc ec : Z) :
  0 <= mx -> PRE mx ex -> -2200 <= ex ->
  0 <= mc < 2 ^ 53 -> -1074 <= ec <= 971 ->
  V mx ex < V mc ec \/ (lx = loc_Exact /\ V mx ex = V mc ec) ->
  nn (binary_round_aux prec emax false mx ex lx) /\
  sval (binary_round_aux prec emax false mx ex lx) <= V mc ec.
Proof.
  intros Hm Hpre He Hmc Hec Hle.
  destruct (@round_aux_result mx ex lx Hm Hpre He)
    as (m' & e' & m1 & m'' & e'' & Hc1 & Hlo1 & Hhi1 & Hm1 & Hdown & Hc2
        & Hlo2 & Hhi2 & ->).
  destruct (rounded_form _ _ Hc2) as [Hnn Hv]. split; [assumption | ].
  pose proof (@bp_pos e' ltac:(destruct Hc1; lia)) as HP.
  assert (H1 : V m1 e' <= V mc ec).
  { destruct (Z.lt_ge_cases (V m' e') (V mc ec)) as [Hlt | Hge].
    - pose proof (@cell_gap m' e' mc ec Hc1 ltac:(lia) ltac:(lia) Hlt).
      apply Z.le_trans with (V (m' + 1) e'); [ | assumption].
      apply V_mono; [destruct Hc1; lia | lia].
    - destruct Hle as [Hlt | [-> Heq]]; [lia | ].
      rewrite (Hdown eq_refl ltac:(lia)). lia. }
  pose proof (@V_below_top mc ec ltac:(lia) ltac:(lia)).
  destruct Hv as [-> | [-> ?]]; lia.
Qed.

(** An exact result below the middle of the cell above a number of the
    format is rounded to that number at most. *)
Lemma round_mid (mx ex : Z) (mc ec : Z) :
  0 <= mx -> PRE mx ex -> -2200 <= ex ->
  cellp mc ec -> ec <= 971 ->
  2 * V mx ex < 2 * V mc ec + bp ec ->
  nn (binary_round_aux prec emax false mx ex loc_Exact) /\
  sval (binary_round_aux prec emax false mx ex loc_Exact) <= V mc ec.
Proof.
  intros Hm Hpre He Hcc Hec Hlt.
  destruct (@round_aux_result mx ex loc_Exact Hm Hpre He)
    as (m' & e' & m1 & m'' & e'' & Hc1 & Hlo1 & Hhi1 & Hm1 & Hdown & Hc2
        & Hlo2 & Hhi2 & ->).
  destruct (rounded_form _ _ Hc2) as [Hnn Hv]. split; [assumption | ].
  pose proof Hc1 as (He1 & Hm1' & Hn1).
  pose proof Hcc as (Hec' & Hmc & Hnc).
  pose proof (@bp_pos e' ltac:(lia)) as HP.
  pose proof (@bp_pos ec ltac:(lia)) as HPc.
  assert (H1 : V m1 e' <= V mc ec).
  { destruct (Z.lt_ge_cases (V m' e') (V mc ec)) as [Hlt' | Hge].
    - pose proof (@cell_gap m' e' mc ec Hc1 ltac:(lia) ltac:(lia) Hlt').
      apply Z.le_trans with (V (m' + 1) e'); [ | assumption].
      apply V_mono; lia.
    - assert (Heq : V m' e' = V mc ec).
      { destruct (Z.eq_dec (V m' e') (V mc ec)) as [ | Hne]; [assumption | ].
        pose proof (@cell_gap mc ec m' e' Hcc ltac:(lia) ltac:(lia)
                      ltac:(lia)) as Hgap.
        rewrite V_succ in Hgap. lia. }
      assert (Hee : ec <= e').
      { destruct (Z.le_gt_cases ec e') as [ | Hgt]; [assumption | exfalso].
        specialize (Hnc ltac:(lia)).
        assert (HV : V mc ec = V (mc * 2 ^ (ec - e')) e').
        { rewrite <- V_shift by lia. f_equal. lia. }
        assert (HK : 2 ^ 1 <= 2 ^ (ec - e'))
          by (apply Z.pow_le_mono_r; lia).
        change (2 ^ 1) with 2 in HK.
        change (2 ^ 53) with (2 * 2 ^ 52) in Hm1'.
        rewrite HV in Heq. unfold V in Heq.
        assert (m' = mc * 2 ^ (ec - e')).
        { apply (Z.mul_cancel_r _ _ (bp e')); lia. }
        nia. }
      pose proof (@bp_le ec e' ltac:(lia) Hee).
      rewrite (Hdown eq_refl ltac:(lia)). lia. }
  pose proof (@V_below_top mc ec ltac:(lia) ltac:(lia)).
  destruct Hv as [-> | [-> ?]]; lia.
Qed.

Lemma round_nn (mx ex : Z) (lx : location) :
  0 <= mx -> PRE mx ex -> -2200 <= ex ->
  nn (binary_round_aux prec emax false mx ex lx).
Proof.
  intros Hm Hpre He.
  destruct (@round_aux_result mx ex lx Hm Hpre He)
    as (m' & e' & m1 & m'' & e'' & _ & _ & _ & _ & _ & Hc2 & _ & _ & ->).
  apply (rounded_form _ _ Hc2).
Qed.

(** ** Numbers of the format *)

(** A valid finite number is in a cell and below the overflow
    threshold. *)
Lemma bounded_cell (m : positive) (e : Z) :
  bounded prec emax m e = true -> cellp (Zpos m) e /\ e <= 971.
Proof.
  unfold bounded, canonical_mantissa. intros Hb.
  apply andb_prop in Hb. destruct Hb as [Hc He].
  apply Z.eqb_eq in Hc. apply Z.leb_le in He. rewrite fexp_eq in Hc.
  change (emax - prec) with 971 in He.
  pose proof (digits2_pos_bounds m) as [Hlo Hhi].
  split; [ | assumption]. unfold cellp. split; [lia | ]. split.
  - split; [lia | ].
    assert (2 ^ Zpos (digits2_pos m) <= 2 ^ 53)
      by (apply Z.pow_le_mono_r; lia).
    lia.
  - intros Hgt.
    replace (Zpos (digits2_pos m) - 1) with 52 in Hlo by lia. assumption.
Qed.

Lemma cell_digits (m e : Z) :
  cellp m e -> Zdigits2 m <= 53 /\ (-1074 < e -> Zdigits2 m = 53).
Proof.
  intros (He & Hm & Hn).
  assert (H53 : Zdigits2 m <= 53) by (apply Zdigits2_le; lia).
  split; [assumption | ]. intros Hgt. specialize (Hn Hgt).
  pose proof (@Zdigits2_ge m 52 ltac:(lia) Hn). lia.
Qed.

Lemma cell_pos_value (m : positive) (e : Z) :
  cellp (Zpos m) e -> bp (-1074) <= V (Zpos m) e.
Proof.
  intros (He & _ & _). unfold V.
  pose proof (@bp_le (-1074) e ltac:(lia) He).
  pose proof (@bp_pos (-1074) ltac:(lia)). nia.
Qed.

Lemma cell_max_value (m e : Z) :
  cellp m e -> e <= 971 -> V m e <= V (2 ^ 53 - 1) 971.
Proof.
  intros (He & Hm & _) He'. unfold V.
  pose proof (@bp_le e 971 ltac:(lia) He').
  pose proof (@bp_pos e ltac:(lia)). nia.
Qed.

Lemma nn_valid (z : spec_float) :
  valid_binary z = true ->
  match z with
  | S754_zero _ => True
  | S754_infinity s => s = false
  | S754_nan => False
  | S754_finite s _ _ => s = false
  end ->
  nn z.
Proof.
  destruct z as [s | s | | s m e]; cbn [valid_binary nn]; intros Hv Hs;
    try exact I; try contradiction; subst s; try exact I.
  now apply bounded_cell.
Qed.

Ltac cmp_lt :=
  match goal with
  | |- Some _ = Some (?a ?= ?b) =>
      replace (a ?= b) with Lt
        by (symmetry; apply Z.compare_lt_iff; lia); reflexivity
  end.

Ltac cmp_gt :=
  match goal with
  | |- Some _ = Some (?a ?= ?b) =>
      replace (a ?= b) with Gt
        by (symmetry; apply Z.compare_gt_iff; lia); reflexivity
  end.

(** The order of the format is the order of the values. *)
Lemma SFcompare_nn (x y : spec_float) :
  nn x -> nn y -> SFcompare x y = Some (sval x ?= sval y).
Proof.
  intros Hx Hy.
  pose proof (@bp_pos 1024 ltac:(lia)) as Htop.
  destruct x as [sx | [ | ] | | [ | ] mx ex]; try contradiction;
    destruct y as [sy | [ | ] | | [ | ] my ey]; try contradiction;
    cbn [SFcompare sval nn] in *.
  - now rewrite Z.compare_refl.
  - cmp_lt.
  - destruct Hy as [Hc _]. pose proof (cell_pos_value _ _ Hc).
    pose proof (@bp_pos (-1074) ltac:(lia)).
    cmp_lt.
  - cmp_gt.
  - now rewrite Z.compare_refl.
  - destruct Hy as [(He & Hm & _) He'].
    pose proof (@V_below_top (Zpos my) ey ltac:(lia) ltac:(lia)).
    cmp_gt.
  - destruct Hx as [Hc _]. pose proof (cell_pos_value _ _ Hc).
    pose proof (@bp_pos (-1074) ltac:(lia)).
    cmp_gt.
  - destruct Hx as [(He & Hm & _) He'].
    pose proof (@V_below_top (Zpos mx) ex ltac:(lia) ltac:(lia)).
    cmp_lt.
  - destruct Hx as [(Hex & Hmx & Hnx) _], Hy as [(Hey & Hmy & Hny) _].
    f_equal. symmetry.
    destruct (Z.compare_spec ex ey) as [-> | Hlt | Hgt].
    + rewrite Pos.compare_cont_spec.
      change (Pos.compare mx my) with (Z.compare (Zpos mx) (Zpos my)).
      replace (Pos.switch_Eq Eq (Zpos mx ?= Zpos my))
        with (Zpos mx ?= Zpos my) by (destruct (Zpos mx ?= Zpos my); reflexivity).
      unfold V. symmetry. apply Zmult_compare_compat_r.
      pose proof (@bp_pos ey ltac:(lia)). lia.
    + apply Z.compare_lt_iff.
      assert (HV : V (Zpos my) ey = V (Zpos my * 2 ^ (ey - ex)) ex).
      { rewrite <- V_shift by lia. f_equal. lia. }
      rewrite HV. unfold V. apply Z.mul_lt_mono_pos_r; [apply bp_pos; lia | ].
      assert (HK : 2 ^ 1 <= 2 ^ (ey - ex)) by (apply Z.pow_le_mono_r; lia).
      change (2 ^ 1) with 2 in HK. specialize (Hny ltac:(lia)).
      change (2 ^ 53) with (2 * 2 ^ 52) in Hmx. nia.
    + apply Z.compare_gt_iff.
      assert (HV : V (Zpos mx) ex = V (Zpos mx * 2 ^ (ex - ey)) ey).
      { rewrite <- V_shift by lia. f_equal. lia. }
      rewrite HV. unfold V. apply Z.mul_lt_mono_pos_r; [apply bp_pos; lia | ].
      assert (HK : 2 ^ 1 <= 2 ^ (ex - ey)) by (apply Z.pow_le_mono_r; lia).
      change (2 ^ 1) with 2 in HK. specialize (Hnx ltac:(lia)).
      change (2 ^ 53) with (2 * 2 ^ 52) in Hmy. nia.
Qed.

Lemma SFleb_nn (x y : spec_float) :
  nn x -> nn y -> SFleb x y = true <-> sval x <= sval y.
Proof.
  intros Hx Hy. unfold SFleb. rewrite (SFcompare_nn _ _ Hx Hy).
  destruct (Z.compare_spec (sval x) (sval y)); split; intros; try lia;
    try reflexivity; discriminate.
Qed.

Lemma SFltb_nn (x y : spec_float) :
  nn x -> nn y -> SFltb x y = true <-> sval x < sval y.
Proof.
  intros Hx Hy. unfold SFltb. rewrite (SFcompare_nn _ _ Hx Hy).
  destruct (Z.compare_spec (sval x) (sval y)); split; intros; try lia;
    try reflexivity; discriminate.
Qed.

(** ** Alignment and [binary_round] *)

(** [shl_align] shifts to the left by appending zero bits. *)
Lemma iter_xO (m d : positive) :
  Zpos (Pos.iter xO m d) = Zpos m * 2 ^ Zpos d.
Proof.
  induction d as [ | d IH] using Pos.peano_ind.
  - cbn [Pos.iter]. rewrite (Pos2Z.inj_xO m). change (2 ^ 1) with 2. ring.
  - rewrite Pos.iter_succ, (Pos2Z.inj_xO (Pos.iter xO m d)), IH.
    rewrite Pos2Z.inj_succ, Z.pow_succ_r by lia. ring.
Qed.

Lemma shl_align_spec (m : positive) (e e' : Z) :
  -2200 <= e' ->
  let r := shl_align m e e' in
  V (Zpos (fst r)) (snd r) = V (Zpos m) e /\
  snd r = Z.min e e' /\
  Zpos m <= Zpos (fst r) /\
  (e' <= e -> Zpos (fst r) = Zpos m * 2 ^ (e - e')).
Proof.
  intros He' r. unfold shl_align in r.
  destruct (e' - e) as [ | d | d] eqn:Ed; subst r; cbn [fst snd].
  - assert (e' = e) by lia. subst e'.
    rewrite Z.sub_diag, Z.pow_0_r. repeat split; lia.
  - repeat split; try lia.
  - rewrite iter_xO.
    assert (HV : V (Zpos m) e = V (Zpos m * 2 ^ (e - e')) e').
    { rewrite <- V_shift by lia. f_equal. lia. }
    replace (e - e') with (Zpos d) in * by lia.
    pose proof (@pow2_pos (Zpos d) ltac:(lia)).
    repeat split; try lia; try (symmetry; assumption). nia.
Qed.

(** [binary_round] aligns the mantissa on the exponent of the format and
    rounds; the value before rounding is the one it was given. *)
Lemma binary_round_spec (m : positive) (e : Z) :
  -2200 <= e ->
  exists mz ez,
    binary_round prec emax false m e
      = binary_round_aux prec emax false (Zpos mz) ez loc_Exact /\
    V (Zpos mz) ez = V (Zpos m) e /\ PRE (Zpos mz) ez /\ -2200 <= ez.
Proof.
  intros He. unfold binary_round.
  set (e' := fexp prec emax (Zpos (digits2_pos m) + e)).
  assert (He' : -1074 <= e') by (unfold e'; rewrite fexp_eq; lia).
  destruct (@shl_align_spec m e e' ltac:(lia)) as (HV & Hs & Hm & Hsh).
  destruct (shl_align m e e') as [mz ez]. cbn [fst snd] in *.
  exists mz, ez. repeat split; try assumption; try lia.
  unfold PRE.
  assert (Hd : Zdigits2 (Zpos m) + e <= Zdigits2 (Zpos mz) + ez).
  { destruct (Z.le_gt_cases e' e) as [Hle | Hgt].
    - specialize (Hsh Hle). rewrite Hs. replace (Z.min e e') with e' by lia.
      destruct (@Zdigits2_bounds (Zpos m) ltac:(lia)) as [Hd1 [Hlo _]].
      assert (2 ^ (Zdigits2 (Zpos m) - 1 + (e - e')) <= Zpos mz).
      { rewrite Z.pow_add_r, Hsh by lia.
        apply Z.mul_le_mono_nonneg_r; [ | assumption].
        apply Z.lt_le_incl, pow2_pos. lia. }
      pose proof (Zdigits2_ge (Zpos mz) (Zdigits2 (Zpos m) - 1 + (e - e'))
                    ltac:(lia) H). lia.
    - rewrite Hs. replace (Z.min e e') with e by lia.
      destruct (@Zdigits2_bounds (Zpos m) ltac:(lia)) as [Hd1 [Hlo _]].
      assert (2 ^ (Zdigits2 (Zpos m) - 1) <= Zpos mz) by lia.
      pose proof (Zdigits2_ge (Zpos mz) (Zdigits2 (Zpos m) - 1)
                    ltac:(lia) H). lia. }
  pose proof (fexp_mono _ _ Hd) as Hf. cbn [Zdigits2] in Hf. fold e' in Hf.
  change (Zpos (digits2_pos mz)) with (Zdigits2 (Zpos mz)) in Hf.
  lia.
Qed.

Lemma bround_nn (m : positive) (e : Z) :
  -2200 <= e -> nn (binary_round prec emax false m e).
Proof.
  intros He. destruct (binary_round_spec m e He) as (mz & ez & -> & HV & Hp & Hez).
  apply round_nn; [lia | assumption | assumption].
Qed.

Lemma bround_low (m : positive) (e mc ec : Z) :
  -2200 <= e -> 0 < mc < 2 ^ 53 -> -1074 <= ec <= 971 ->
  V mc ec <= V (Zpos m) e ->
  V mc ec <= sval (binary_round prec emax false m e).
Proof.
  intros He Hmc Hec Hle.
  destruct (binary_round_spec m e He) as (mz & ez & -> & HV & Hp & Hez).
  apply round_low; try assumption; try lia.
  rewrite V_succ, HV. pose proof (@bp_pos ez Hez). lia.
Qed.

Lemma bround_high (m : positive) (e mc ec : Z) :
  -2200 <= e -> 0 <= mc < 2 ^ 53 -> -1074 <= ec <= 971 ->
  V (Zpos m) e <= V mc ec ->
  sval (binary_round prec emax false m e) <= V mc ec.
Proof.
  intros He Hmc Hec Hle.
  destruct (binary_round_spec m e He) as (mz & ez & -> & HV & Hp & Hez).
  apply round_high; try assumption; try lia.
  rewrite HV. destruct (Z.eq_dec (V (Zpos m) e) (V mc ec)); [right | left];
    auto; lia.
Qed.

Lemma bround_mid (m : positive) (e mc ec : Z) :
  -2200 <= e -> cellp mc ec -> ec <= 971 ->
  2 * V (Zpos m) e < 2 * V mc ec + bp ec ->
  sval (binary_round prec emax false m e) <= V mc ec.
Proof.
  intros He Hc Hec Hlt.
  destruct (binary_round_spec m e He) as (mz & ez & -> & HV & Hp & Hez).
  apply round_mid; try assumption; try lia.
Qed.

(** ** The four operations on non-negative numbers *)

(** A mantissa and an exponent that the format can hold (not necessarily
    in a cell). *)
Definition fl (mc ec : Z) : Prop := 0 <= mc < 2 ^ 53 /\ -1074 <= ec <= 971.

Lemma fl_below_top (mc ec : Z) : fl mc ec -> V mc ec < bp 1024.
Proof. intros [Hm He]. apply V_below_top; lia. Qed.

Lemma fl_nonneg (mc ec : Z) : fl mc ec -> 0 <= V mc ec.
Proof.
  intros [Hm He]. unfold V. pose proof (bp_pos ec ltac:(lia)). nia.
Qed.

Lemma fl_succ_top (mc ec : Z) : fl mc ec -> V mc ec + bp ec <= bp 1024.
Proof.
  intros [Hm He]. rewrite bp_1024'. unfold V.
  pose proof (bp_le ec 971 ltac:(lia) ltac:(lia)).
  pose proof (bp_pos ec ltac:(lia)). nia.
Qed.

(** A finite non-negative number is a zero or has a mantissa and an
    exponent of the format. *)
Lemma nn_finite_fl (z : spec_float) :
  nn z -> sval z < bp 1024 ->
  exists mc ec, fl mc ec /\ V mc ec = sval z /\ (0 < sval z -> 0 < mc).
Proof.
  destruct z as [s | [ | ] | | [ | ] m e]; cbn [nn sval]; try contradiction.
  - intros _ _. exists 0, 0. unfold fl, V. repeat split; lia.
  - lia.
  - intros [(He & Hm & _) He'] _. exists (Zpos m), e. unfold fl.
    repeat split; lia.
Qed.

(** A number of the format below the middle of the cell above another is
    that other at most. *)
Lemma below_mid_le (z : spec_float) (mc ec : Z) :
  nn z -> cellp mc ec -> ec <= 971 ->
  2 * sval z < 2 * V mc ec + bp ec -> sval z <= V mc ec.
Proof.
  intros Hz Hc Hec Hlt. pose proof Hc as (He & Hm & _).
  pose proof (bp_pos ec ltac:(lia)) as HP.
  pose proof (fl_succ_top mc ec ltac:(unfold fl; lia)) as Htop.
  pose proof (fl_nonneg mc ec ltac:(unfold fl; lia)) as H0.
  destruct z as [s | [ | ] | | [ | ] m e]; cbn [nn sval] in *;
    try contradiction; try lia.
  destruct Hz as [(He1 & Hm1 & _) _].
  destruct (Z.le_gt_cases (V (Zpos m) e) (V mc ec)) as [ | Hgt];
    [assumption | ].
  pose proof (cell_gap mc ec (Zpos m) e Hc ltac:(lia) ltac:(lia) Hgt) as Hg.
  rewrite V_succ in Hg. lia.
Qed.

(** Addition of two positive numbers: the exact sum, rounded. *)
Lemma SFadd_finite (mx : positive) (ex : Z) (my : positive) (ey : Z) :
  -1074 <= ex -> -1074 <= ey ->
  exists M ez,
    -2200 <= ez /\
    SFadd prec emax (S754_finite false mx ex) (S754_finite false my ey)
      = binary_round prec emax false M ez /\
    V (Zpos M) ez = V (Zpos mx) ex + V (Zpos my) ey.
Proof.
  intros Hex Hey. cbn [SFadd]. cbv zeta.
  set (ez := Z.min ex ey).
  destruct (shl_align_spec mx ex ez ltac:(lia)) as (HVx & Hsx & _ & _).
  destruct (shl_align_spec my ey ez ltac:(lia)) as (HVy & Hsy & _ & _).
  replace (Z.min ex ez) with ez in Hsx by lia.
  replace (Z.min ey ez) with ez in Hsy by lia.
  rewrite Hsx in HVx. rewrite Hsy in HVy.
  set (a := fst (shl_align mx ex ez)) in *.
  set (b := fst (shl_align my ey ez)) in *.
  exists (a + b)%positive, ez. split; [lia | ]. split; [reflexivity | ].
  rewrite <- HVx, <- HVy. unfold V. rewrite Pos2Z.inj_add. ring.
Qed.

(** The sum of two non-negative numbers is non-negative, is above any
    number of the format that the exact sum is above, and is at most [c]
    when the exact sum is below the middle of the cell above [c]. *)
Lemma SFadd_nn (x y : spec_float) :
  nn x -> nn y ->
  nn (SFadd prec emax x y) /\
  (forall mc ec, fl mc ec -> 0 < mc ->
     V mc ec <= sval x + sval y -> V mc ec <= sval (SFadd prec emax x y)) /\
  (forall mc ec, cellp mc ec -> ec <= 971 ->
     2 * (sval x + sval y) < 2 * V mc ec + bp ec ->
     sval (SFadd prec emax x y) <= V mc ec).
Proof.
  intros Hx Hy.
  assert (Hpos : forall mc ec, fl mc ec -> 0 < mc -> 0 < V mc ec).
  { intros mc ec [Hm He] H0. unfold V.
    pose proof (bp_pos ec ltac:(lia)). nia. }
  pose proof (bp_pos 1024 ltac:(lia)) as Htop.
  destruct x as [sx | [ | ] | | [ | ] mx ex]; try contradiction;
    destruct y as [sy | [ | ] | | [ | ] my ey]; try contradiction.
  - (* zero, zero *)
    assert (E : exists s, SFadd prec emax (S754_zero sx) (S754_zero sy)
                          = S754_zero s).
    { destruct sx, sy; cbn [SFadd]; eauto. }
    destruct E as [s ->]. cbn [nn sval]. split; [exact I | ]. split.
    + intros mc ec Hf H0 Hle. pose proof (Hpos mc ec Hf H0). lia.
    + intros mc ec Hc He _. apply fl_nonneg. destruct Hc as (? & ? & _).
      unfold fl. lia.
  - (* zero, infinity *)
    cbn [SFadd nn sval]. split; [exact I | ]. split.
    + intros mc ec Hf _ _. apply Z.lt_le_incl, fl_below_top, Hf.
    + intros mc ec Hc He Hlt.
      apply (below_mid_le (S754_infinity false)); cbn [nn sval];
        try assumption; try exact I; lia.
  - (* zero, finite *)
    cbn [SFadd nn sval]. split; [assumption | ]. split.
    + intros mc ec _ _ Hle. lia.
    + intros mc ec Hc He Hlt.
      apply (below_mid_le (S754_finite false my ey)); cbn [nn sval];
        try assumption; lia.
  - (* infinity, zero *)
    cbn [SFadd nn sval]. split; [exact I | ]. split.
    + intros mc ec Hf _ _. apply Z.lt_le_incl, fl_below_top, Hf.
    + intros mc ec Hc He Hlt.
      apply (below_mid_le (S754_infinity false)); cbn [nn sval];
        try assumption; try exact I; lia.
  - (* infinity, infinity *)
    cbn [SFadd nn sval]. split; [exact I | ]. split.
    + intros mc ec Hf _ _. apply Z.lt_le_incl, fl_below_top, Hf.
    + intros mc ec Hc He Hlt.
      apply (below_mid_le (S754_infinity false)); cbn [nn sval];
        try assumption; try exact I; lia.
  - (* infinity, finite *)
    cbn [SFadd nn sval]. split; [exact I | ]. split.
    + intros mc ec Hf _ _. apply Z.lt_le_incl, fl_below_top, Hf.
    + intros mc ec Hc He Hlt.
      pose proof (sval_nonneg (S754_finite false my ey) Hy) as Hy0.
      cbn [sval] in Hy0.
      apply (below_mid_le (S754_infinity false)); cbn [nn sval];
        try assumption; try exact I; lia.
  - (* finite, zero *)
    cbn [SFadd nn sval]. split; [assumption | ]. split.
    + intros mc ec _ _ Hle. lia.
    + intros mc ec Hc He Hlt.
      apply (below_mid_le (S754_finite false mx ex)); cbn [nn sval];
        try assumption; lia.
  - (* finite, infinity *)
    cbn [SFadd nn sval]. split; [exact I | ]. split.
    + intros mc ec Hf _ _. apply Z.lt_le_incl, fl_below_top, Hf.
    + intros mc ec Hc He Hlt.
      pose proof (sval_nonneg (S754_finite false mx ex) Hx) as Hx0.
      cbn [sval] in Hx0.
      apply (below_mid_le (S754_infinity false)); cbn [nn sval];
        try assumption; try exact I; lia.
  - (* finite, finite *)
    cbn [nn] in Hx, Hy.
    destruct Hx as [(Hex & _ & _) _], Hy as [(Hey & _ & _) _].
    destruct (SFadd_finite mx ex my ey Hex Hey) as (M & ez & Hez & -> & HV).
    cbn [sval]. rewrite <- HV. split; [now apply bround_nn | ]. split.
    + intros mc ec [Hm He] H0 Hle. apply bround_low; try assumption; lia.
    + intros mc ec Hc He Hlt. apply bround_mid; assumption.
Qed.

(** The product of two finite non-negative numbers is non-negative and is
    bounded by the numbers of the format that bound the exact product. *)
Lemma SFmul_nn (x y : spec_float) :
  nn x -> nn y -> sval x < bp 1024 -> sval y < bp 1024 ->
  nn (SFmul prec emax x y) /\
  (forall mc ec, fl mc ec ->
     sval x * sval y <= V mc ec * bp 0 ->
     sval (SFmul prec emax x y) <= V mc ec) /\
  (forall mc ec, fl mc ec -> 0 < mc ->
     V mc ec * bp 0 <= sval x * sval y ->
     V mc ec <= sval (SFmul prec emax x y)).
Proof.
  intros Hx Hy Hfx Hfy.
  pose proof (bp_pos 0 ltac:(lia)) as HP0.
  assert (Hpos : forall mc ec, fl mc ec -> 0 < mc -> 0 < V mc ec * bp 0).
  { intros mc ec [Hm He] H0. unfold V.
    pose proof (bp_pos ec ltac:(lia)). nia. }
  assert (Hzero : forall s,
    nn (S754_zero s) /\
    (forall mc ec, fl mc ec -> 0 <= V mc ec * bp 0 ->
       sval (S754_zero s) <= V mc ec) /\
    (forall mc ec, fl mc ec -> 0 < mc -> V mc ec * bp 0 <= 0 ->
       V mc ec <= sval (S754_zero s))).
  { intros s. cbn [nn sval]. split; [exact I | ]. split.
    - intros mc ec Hf _. now apply fl_nonneg.
    - intros mc ec Hf H0 Hle. pose proof (Hpos mc ec Hf H0). lia. }
  destruct x as [sx | [ | ] | | [ | ] mx ex]; try contradiction;
    destruct y as [sy | [ | ] | | [ | ] my ey]; try contradiction;
    cbn [sval] in Hfx, Hfy; try lia.
  - cbn [SFmul sval]. rewrite Z.mul_0_l. apply Hzero.
  - cbn [SFmul sval]. rewrite Z.mul_0_l. apply Hzero.
  - cbn [SFmul sval]. rewrite Z.mul_0_r. apply Hzero.
  - cbn [SFmul sval nn xorb] in *.
    destruct Hx as [Hcx Hex'], Hy as [Hcy Hey'].
    pose proof Hcx as (Hex & Hmx & Hnx). pose proof Hcy as (Hey & Hmy & Hny).
    destruct (cell_digits _ _ Hcx) as [Hdx Hdx'].
    destruct (cell_digits _ _ Hcy) as [Hdy Hdy'].
    destruct (Zdigits2_bounds (Zpos mx) ltac:(lia)) as [Hx1 [Hxlo _]].
    destruct (Zdigits2_bounds (Zpos my) ltac:(lia)) as [Hy1 [Hylo _]].
    assert (Hpre : PRE (Zpos (mx * my)) (ex + ey)).
    { unfold PRE. rewrite fexp_eq.
      assert (Hlo : 2 ^ (Zdigits2 (Zpos mx) - 1 + (Zdigits2 (Zpos my) - 1))
                    <= Zpos (mx * my)).
      { rewrite Z.pow_add_r, Pos2Z.inj_mul by lia.
        apply Z.mul_le_mono_nonneg; try assumption;
          apply Z.lt_le_incl, pow2_pos; lia. }
      pose proof (Zdigits2_ge (Zpos (mx * my))
                    (Zdigits2 (Zpos mx) - 1 + (Zdigits2 (Zpos my) - 1))
                    ltac:(lia) Hlo). lia. }
    assert (HV : V (Zpos (mx * my)) (ex + ey) * bp 0
                 = V (Zpos mx) ex * V (Zpos my) ey).
    { unfold V. rewrite Pos2Z.inj_mul.
      transitivity (Zpos mx * Zpos my * (bp ex * bp ey)); [ | ring].
      rewrite bp_mul by lia. ring. }
    split; [apply round_nn; [lia | assumption | lia] | ]. split.
    + intros mc ec [Hm He] Hle.
      apply round_high; try assumption; try lia.
      rewrite <- HV in Hle.
      destruct (Z.eq_dec (V (Zpos (mx * my)) (ex + ey)) (V mc ec));
        [right; auto | left]. nia.
    + intros mc ec [Hm He] H0 Hle.
      apply round_low; try assumption; try lia.
      rewrite V_succ. pose proof (bp_pos (ex + ey) ltac:(lia)).
      rewrite <- HV in Hle. nia.
Qed.

(** [x - y] for [0 <= y <= x] and [x] positive. *)
Lemma SFsub_nn (mx : positive) (ex : Z) (y : spec_float) :
  nn (S754_finite false mx ex) -> nn y ->
  sval y <= V (Zpos mx) ex ->
  nn (SFsub prec emax (S754_finite false mx ex) y) /\
  sval (SFsub prec emax (S754_finite false mx ex) y) <= V (Zpos mx) ex /\
  (forall mc ec, fl mc ec -> 0 < mc ->
     V mc ec <= V (Zpos mx) ex - sval y ->
     V mc ec <= sval (SFsub prec emax (S754_finite false mx ex) y)).
Proof.
  intros Hx Hy Hle. pose proof Hx as [(Hex & Hmx & _) Hex'].
  pose proof (V_below_top (Zpos mx) ex ltac:(lia) ltac:(lia)) as Hxt.
  destruct y as [sy | [ | ] | | [ | ] my ey]; try contradiction;
    cbn [sval] in Hle; try lia.
  - cbn [SFsub sval]. split; [assumption | ]. split; [lia | ].
    intros mc ec _ _ H. lia.
  - pose proof Hy as [(Hey & Hmy & _) Hey'].
    cbn [SFsub]. cbv zeta. set (ez := Z.min ex ey).
    destruct (shl_align_spec mx ex ez ltac:(lia)) as (HVx & Hsx & _ & _).
    destruct (shl_align_spec my ey ez ltac:(lia)) as (HVy & Hsy & _ & _).
    replace (Z.min ex ez) with ez in Hsx by lia.
    replace (Z.min ey ez) with ez in Hsy by lia.
    rewrite Hsx in HVx. rewrite Hsy in HVy.
    set (a := fst (shl_align mx ex ez)) in *.
    set (b := fst (shl_align my ey ez)) in *.
    cbn [cond_Zopp].
    pose proof (bp_pos ez ltac:(lia)) as HP.
    assert (HD : V (Zpos a - Zpos b) ez = V (Zpos mx) ex - V (Zpos my) ey).
    { rewrite <- HVx, <- HVy. unfold V. ring. }
    destruct (Zpos a - Zpos b) as [ | p | p] eqn:ED.
    + cbn [binary_normalize nn sval]. split; [exact I | ].
      split; [apply fl_nonneg; unfold fl; lia | ].
      intros mc ec [Hm He] H0 H. rewrite <- HD in H. unfold V in H |- *.
      pose proof (bp_pos ec ltac:(lia)). nia.
    + cbn [binary_normalize]. split; [apply bround_nn; lia | ].
      pose proof (fl_nonneg (Zpos my) ey ltac:(unfold fl; lia)) as Hy0.
      split.
      * apply bround_high; try lia.
      * intros mc ec [Hm He] H0 H. cbn [sval] in H.
        apply bround_low; try lia.
    + exfalso. unfold V in HD at 1. cbn [sval] in Hle. nia.
Qed.

Lemma new_location_exact (n : Z) : new_location n 0 = loc_Exact.
Proof.
  unfold new_location. destruct (Z.even n); reflexivity.
Qed.

(** The quotient [SFdiv_core_binary] passes to the rounding: its mantissa
    has digits enough, it brackets the exact quotient, and it is marked
    exact when the division leaves no remainder. *)
Lemma SFdiv_core (mx : positive) (ex : Z) (my : positive) (ey : Z) :
  cellp (Zpos mx) ex -> ex <= 971 -> cellp (Zpos my) ey -> ey <= 971 ->
  exists q e' l,
    SFdiv_core_binary prec emax (Zpos mx) ex (Zpos my) ey = (q, e', l) /\
    0 <= q /\ PRE q e' /\ -2200 <= e' /\
    V q e' * V (Zpos my) ey <= V (Zpos mx) ex * bp 0 /\
    V (Zpos mx) ex * bp 0 < V (q + 1) e' * V (Zpos my) ey /\
    (V q e' * V (Zpos my) ey = V (Zpos mx) ex * bp 0 -> l = loc_Exact).
Proof.
  intros Hcx Hex' Hcy Hey'.
  pose proof Hcx as (Hex & Hmx & _). pose proof Hcy as (Hey & Hmy & _).
  unfold SFdiv_core_binary.
  set (d1 := Zdigits2 (Zpos mx)). set (d2 := Zdigits2 (Zpos my)).
  set (e' := Z.min (fexp prec emax (d1 + ex - (d2 + ey))) (ex - ey)).
  set (s := ex - ey - e').
  assert (Hs : 0 <= s) by (unfold s, e'; lia).
  assert (He' : -2200 <= e' /\ -2200 <= e' + ey).
  { unfold e'. rewrite fexp_eq. lia. }
  set (m' := match s with
             | 0 => Zpos mx
             | Zpos _ => Z.shiftl (Zpos mx) s
             | Zneg _ => 0
             end).
  assert (Em' : m' = Zpos mx * 2 ^ s).
  { unfold m'. generalize Hs. generalize s. intros [ | p | p] Hp.
    - change (2 ^ 0) with 1. lia.
    - rewrite Z.shiftl_mul_pow2 by lia. reflexivity.
    - lia. }
  pose proof (Z_div_mod m' (Zpos my) ltac:(lia)) as Hdm.
  destruct (Z.div_eucl m' (Zpos my)) as [q r]. destruct Hdm as [Hqr Hr].
  exists q, e', (new_location (Zpos my) r).
  split; [reflexivity | ].
  pose proof (pow2_pos s Hs) as HS.
  assert (Hq : 0 <= q) by nia.
  split; [assumption | ].
  destruct (Zdigits2_bounds (Zpos mx) ltac:(lia)) as [Hd1 [Hlo1 Hhi1]].
  destruct (Zdigits2_bounds (Zpos my) ltac:(lia)) as [Hd2 [Hlo2 Hhi2]].
  fold d1 in Hd1, Hlo1, Hhi1. fold d2 in Hd2, Hlo2, Hhi2.
  assert (Hm'lo : 2 ^ (d1 - 1 + s) <= m').
  { rewrite Em', Z.pow_add_r by lia.
    apply Z.mul_le_mono_nonneg_r; lia. }
  split.
  { unfold PRE.
    assert (Hdq : d1 + s - d2 <= Zdigits2 q).
    { destruct (Z.le_gt_cases (d1 + s - d2) 0) as [Hk | Hk].
      - pose proof (Zdigits2_nonneg q). lia.
      - assert (Hpow : 2 ^ (d1 - 1 + s) = 2 ^ (d1 + s - d2 - 1) * 2 ^ d2).
        { rewrite <- Z.pow_add_r by lia. f_equal. lia. }
        pose proof (pow2_pos (d1 + s - d2 - 1) ltac:(lia)) as HK.
        assert (2 ^ (d1 + s - d2 - 1) <= q) by nia.
        pose proof (Zdigits2_ge q (d1 + s - d2 - 1) ltac:(lia) H). lia. }
    assert (Hf : fexp prec emax (d1 + ex - (d2 + ey))
                 <= fexp prec emax (Zdigits2 q + e')).
    { apply fexp_mono. unfold s in Hdq. lia. }
    unfold e' at 2. lia. }
  split; [lia | ].
  assert (HVx : V (Zpos mx) ex * bp 0 = m' * (bp (e' + ey) * bp 0)).
  { unfold V. rewrite Em'.
    rewrite (bp_split (e' + ey) ex) by (unfold s in *; lia).
    replace (ex - (e' + ey)) with s by (unfold s; lia). ring. }
  assert (HVq : forall k, V k e' * V (Zpos my) ey
                          = k * Zpos my * (bp (e' + ey) * bp 0)).
  { intros k. unfold V.
    transitivity (k * Zpos my * (bp e' * bp ey)); [ring | ].
    rewrite bp_mul by lia. reflexivity. }
  pose proof (bp_pos (e' + ey) ltac:(lia)) as HP1.
  pose proof (bp_pos 0 ltac:(lia)) as HP0.
  assert (HX : 0 < bp (e' + ey) * bp 0) by nia.
  rewrite HVx, !HVq. set (X := bp (e' + ey) * bp 0) in *.
  split; [nia | ]. split; [nia | ].
  intros Heq. assert (r = 0) by nia. subst r. apply new_location_exact.
Qed.

(** The quotient of a finite non-negative number by a positive one is
    non-negative and is bounded by the numbers of the format that bound
    the exact quotient. *)
Lemma SFdiv_nn (x y : spec_float) :
  nn x -> nn y -> sval x < bp 1024 -> 0 < sval y ->
  nn (SFdiv prec emax x y) /\
  (forall mc ec, fl mc ec ->
     sval x * bp 0 <= V mc ec * sval y ->
     sval (SFdiv prec emax x y) <= V mc ec) /\
  (forall mc ec, fl mc ec -> 0 < mc -> sval y < bp 1024 ->
     V mc ec * sval y <= sval x * bp 0 ->
     V mc ec <= sval (SFdiv prec emax x y)).
Proof.
  intros Hx Hy Hfx Hy0.
  pose proof (bp_pos 0 ltac:(lia)) as HP0.
  assert (Hpos : forall mc ec, fl mc ec -> 0 < mc -> 0 < V mc ec).
  { intros mc ec [Hm He] H0. unfold V.
    pose proof (bp_pos ec ltac:(lia)). nia. }
  destruct x as [sx | [ | ] | | [ | ] mx ex]; try contradiction;
    destruct y as [sy | [ | ] | | [ | ] my ey]; try contradiction;
    cbn [sval] in Hfx, Hy0; try lia.
  - cbn [SFdiv nn sval]. split; [exact I | ]. split.
    + intros mc ec Hf _. now apply fl_nonneg.
    + intros mc ec Hf H0 Hfin _. lia.
  - cbn [SFdiv nn sval]. split; [exact I | ]. split.
    + intros mc ec Hf _. now apply fl_nonneg.
    + intros mc ec Hf H0 _ Hle. pose proof (Hpos mc ec Hf H0). nia.
  - cbn [SFdiv nn sval]. split; [exact I | ]. split.
    + intros mc ec Hf _. now apply fl_nonneg.
    + intros mc ec Hf H0 Hfin _. lia.
  - cbn [nn] in Hx, Hy. destruct Hx as [Hcx Hex'], Hy as [Hcy Hey'].
    destruct (SFdiv_core mx ex my ey Hcx Hex' Hcy Hey')
      as (q & e' & l & E & Hq & Hpre & He' & Hlo & Hhi & Hexact).
    cbn [SFdiv sval xorb]. rewrite E.
    split; [now apply round_nn | ]. split.
    + intros mc ec [Hm He] Hle.
      apply round_high; try assumption; try lia.
      destruct (Z.eq_dec (V q e') (V mc ec)) as [Heq | Hne].
      * right. split; [ | assumption]. apply Hexact. rewrite Heq in *. lia.
      * left. nia.
    + intros mc ec [Hm He] H0 _ Hle.
      apply round_low; try assumption; try lia. nia.
Qed.

(** ** The conversion of a count *)

Lemma binary_normalize_count (T : Z) :
  0 < T < 2 ^ 31 ->
  nn (binary_normalize prec emax T 0 false) /\
  bp 0 <= sval (binary_normalize prec emax T 0 false) <= bp 31.
Proof.
  intros HT. destruct T as [ | p | p]; try lia. cbn [binary_normalize].
  split; [apply bround_nn; lia | ].
  pose proof (bp_pos 0 ltac:(lia)) as HP0.
  split.
  - replace (bp 0) with (V 1 0) by (unfold V; lia).
    apply bround_low; try lia. unfold V. nia.
  - replace (bp 31) with (V (2 ^ 31) 0)
      by (unfold V; symmetry; apply (bp_split 0 31); lia).
    apply bround_high; try lia. unfold V. nia.
Qed.

(** ** Binary64 numbers *)

(** A binary64 number that is non-negative (a zero of either sign
    included, NaN excluded), and its value. *)
Definition fnn (x : float) : Prop := nn (Prim2SF x).

Definition fval (x : float) : Z := sval (Prim2SF x).

Lemma Prim2SF_zero : Prim2SF 0%float = S754_zero false.
Proof. reflexivity. Qed.

Lemma Prim2SF_one :
  Prim2SF 1%float = S754_finite false 4503599627370496 (-52).
Proof. reflexivity. Qed.

Lemma Prim2SF_infinity : Prim2SF infinity = S754_infinity false.
Proof. reflexivity. Qed.

Lemma fnn_zero : fnn 0%float /\ fval 0%float = 0.
Proof. unfold fnn, fval. rewrite Prim2SF_zero. split; [exact I | reflexivity]. Qed.

Lemma V_one : V 4503599627370496 (-52) = bp 0.
Proof.
  unfold V. change 4503599627370496 with (2 ^ (0 - -52)).
  symmetry. apply bp_split; lia.
Qed.

Lemma fnn_one : fnn 1%float /\ fval 1%float = bp 0.
Proof.
  unfold fnn, fval. rewrite Prim2SF_one. cbn [nn sval]. split.
  - unfold cellp. change (2 ^ 52) with 4503599627370496.
    change (2 ^ 53) with 9007199254740992. lia.
  - apply V_one.
Qed.

Lemma leb_zero_fnn (x : float) : (0 <=? x)%float = true -> fnn x.
Proof.
  rewrite leb_spec, Prim2SF_zero. unfold fnn. intros Hle.
  apply nn_valid; [apply Prim2SF_valid | ].
  destruct (Prim2SF x) as [s | [ | ] | | [ | ] m e]; try exact I;
    try reflexivity; discriminate Hle.
Qed.

Lemma fnn_leb (x y : float) :
  fnn x -> fnn y -> (x <=? y)%float = true <-> fval x <= fval y.
Proof. intros Hx Hy. rewrite leb_spec. now apply SFleb_nn. Qed.

Lemma fnn_ltb (x y : float) :
  fnn x -> fnn y -> (x <? y)%float = true <-> fval x < fval y.
Proof. intros Hx Hy. rewrite ltb_spec. now apply SFltb_nn. Qed.

Lemma fnn_leb_zero (x : float) : fnn x -> (0 <=? x)%float = true.
Proof.
  intros Hx. apply fnn_leb; [apply fnn_zero | assumption | ].
  destruct fnn_zero as [_ ->]. now apply sval_nonneg.
Qed.

Lemma fval_nonneg (x : float) : fnn x -> 0 <= fval x.
Proof. apply sval_nonneg. Qed.

(** [+infinity] is the one non-negative number that is not finite. *)
Lemma is_finite_fval (x : float) :
  fnn x -> is_finite x = true -> fval x < bp 1024.
Proof.
  unfold fnn, fval, is_finite, is_infinity. intros Hx Hf.
  apply negb_true_iff, orb_false_iff in Hf. destruct Hf as [_ Hf].
  rewrite eqb_spec, abs_spec, Prim2SF_infinity in Hf.
  destruct (Prim2SF x) as [s | [ | ] | | [ | ] m e]; try contradiction;
    cbn [sval].
  - apply bp_pos. lia.
  - discriminate Hf.
  - destruct Hx as [(He & Hm & _) He']. apply V_below_top; lia.
Qed.

(** Addition. *)
Lemma f_add (x y : float) :
  fnn x -> fnn y ->
  fnn (x + y) /\ fval x <= fval (x + y) /\ fval y <= fval (x + y).
Proof.
  unfold fnn, fval. rewrite add_spec. unfold SF64add. intros Hx Hy.
  destruct (SFadd_nn _ _ Hx Hy) as (Hnn & Hlow & _).
  split; [assumption | ].
  pose proof (sval_le_top _ Hnn) as Htop.
  pose proof (sval_nonneg _ Hx) as Hx0. pose proof (sval_nonneg _ Hy) as Hy0.
  pose proof (sval_nonneg _ Hnn) as Hz0.
  assert (Hinf : forall z, nn z -> sval z = bp 1024 -> z = S754_infinity false).
  { intros z Hz E.
    destruct z as [s | [ | ] | | [ | ] m e]; try contradiction;
      cbn [sval] in E; try reflexivity.
    - pose proof (bp_pos 1024 ltac:(lia)). lia.
    - destruct Hz as [(He & Hm & _) He'].
      pose proof (V_below_top (Zpos m) e ltac:(lia) ltac:(lia)). lia. }
  assert (Hcase : forall z, nn z ->
            sval z = bp 1024 \/
            exists mc ec, fl mc ec /\ V mc ec = sval z /\ (0 < sval z -> 0 < mc)).
  { intros z Hz. pose proof (sval_le_top _ Hz).
    destruct (Z.eq_dec (sval z) (bp 1024)); [now left | right].
    apply nn_finite_fl; [assumption | lia]. }
  split.
  - destruct (Hcase _ Hx) as [E | (mc & ec & Hf & HV & Hp)].
    + rewrite (Hinf _ Hx E) in *.
      destruct (Prim2SF y) as [s | [ | ] | | [ | ] m e]; try contradiction;
        cbn [SFadd sval]; lia.
    + destruct (Z.eq_dec (sval (Prim2SF x)) 0) as [E0 | Hne]; [lia | ].
      rewrite <- HV. apply Hlow; [assumption | lia | lia].
  - destruct (Hcase _ Hy) as [E | (mc & ec & Hf & HV & Hp)].
    + rewrite (Hinf _ Hy E) in *.
      destruct (Prim2SF x) as [s | [ | ] | | [ | ] m e]; try contradiction;
        cbn [SFadd sval]; lia.
    + destruct (Z.eq_dec (sval (Prim2SF y)) 0) as [E0 | Hne]; [lia | ].
      rewrite <- HV. apply Hlow; [assumption | lia | lia].
Qed.

Lemma f_add_low (x y : float) (mc ec : Z) :
  fnn x -> fnn y -> fl mc ec -> 0 < mc ->
  V mc ec <= fval x + fval y -> V mc ec <= fval (x + y).
Proof.
  unfold fnn, fval. rewrite add_spec. unfold SF64add. intros Hx Hy.
  destruct (SFadd_nn _ _ Hx Hy) as (_ & Hlow & _). apply Hlow.
Qed.

Lemma f_add_mid (x y : float) (mc ec : Z) :
  fnn x -> fnn y -> cellp mc ec -> ec <= 971 ->
  2 * (fval x + fval y) < 2 * V mc ec + bp ec -> fval (x + y) <= V mc ec.
Proof.
  unfold fnn, fval. rewrite add_spec. unfold SF64add. intros Hx Hy.
  destruct (SFadd_nn _ _ Hx Hy) as (_ & _ & Hmid). apply Hmid.
Qed.

(** [1 - a] for [a] in [[0,1]]. *)
Lemma below_one (z : spec_float) :
  nn z -> sval z < bp 0 -> sval z <= bp 0 - bp (-53).
Proof.
  intros Hz Hlt.
  assert (Hc : cellp (2 ^ 53 - 1) (-53)).
  { unfold cellp. change (2 ^ 53) with 9007199254740992.
    change (2 ^ 52) with 4503599627370496. lia. }
  assert (HV : V (2 ^ 53 - 1) (-53) = bp 0 - bp (-53)).
  { unfold V. rewrite (bp_split (-53) 0) by lia.
    change (0 - -53) with 53. ring. }
  pose proof (bp_lt (-53) 0 ltac:(lia) ltac:(lia)) as Hb.
  pose proof (bp_pos (-53) ltac:(lia)) as HP.
  pose proof (bp_lt 0 1024 ltac:(lia) ltac:(lia)) as Ht.
  destruct z as [s | [ | ] | | [ | ] m e]; try contradiction;
    cbn [sval] in *; try lia.
  destruct Hz as [(He & Hm & _) _].
  destruct (Z.le_gt_cases (V (Zpos m) e) (V (2 ^ 53 - 1) (-53)))
    as [ | Hgt]; [lia | ].
  pose proof (cell_gap _ _ (Zpos m) e Hc ltac:(lia) ltac:(lia) Hgt) as Hg.
  rewrite V_succ in Hg. lia.
Qed.

Lemma f_sub_one (a : float) :
  fnn a -> fval a <= bp 0 ->
  fnn (1 - a) /\ fval (1 - a) <= bp 0 /\
  (fval a < bp 0 -> bp (-53) <= fval (1 - a)).
Proof.
  unfold fnn, fval. rewrite sub_spec, Prim2SF_one. unfold SF64sub. intros Ha Hle.
  destruct fnn_one as [H1 _]. unfold fnn in H1. rewrite Prim2SF_one in H1.
  rewrite <- V_one in Hle.
  destruct (SFsub_nn _ _ _ H1 Ha Hle) as (Hnn & Hhi & Hlow).
  rewrite V_one in *.
  split; [assumption | ]. split; [assumption | ].
  intros Hlt. pose proof (below_one _ Ha Hlt) as Hb.
  replace (bp (-53)) with (V 1 (-53)) by (unfold V; lia).
  apply Hlow; [unfold fl; change (2 ^ 53) with 9007199254740992; lia | lia | ].
  unfold V. lia.
Qed.

(** Multiplication. *)
Lemma f_mul (x y : float) :
  fnn x -> fnn y -> fval x < bp 1024 -> fval y < bp 1024 ->
  fnn (x * y) /\
  (forall mc ec, fl mc ec -> fval x * fval y <= V mc ec * bp 0 ->
     fval (x * y) <= V mc ec) /\
  (forall mc ec, fl mc ec -> 0 < mc -> V mc ec * bp 0 <= fval x * fval y ->
     V mc ec <= fval (x * y)).
Proof.
  unfold fnn, fval. rewrite mul_spec. unfold SF64mul. apply SFmul_nn.
Qed.

Lemma f_mul_le (x y : float) :
  fnn x -> fnn y -> fval x <= bp 0 -> fval y < bp 1024 ->
  fnn (x * y) /\ fval (x * y) <= fval y.
Proof.
  intros Hx Hy Hle Hfy.
  pose proof (bp_lt 0 1024 ltac:(lia) ltac:(lia)) as Hb.
  destruct (f_mul x y Hx Hy ltac:(lia) Hfy) as (Hnn & Hhi & _).
  split; [assumption | ].
  destruct (nn_finite_fl _ Hy Hfy) as (mc & ec & Hf & HV & _).
  fold (fval y) in HV. rewrite <- HV. apply Hhi; [assumption | ].
  rewrite HV. pose proof (fval_nonneg y Hy). rewrite (Z.mul_comm (fval y)).
  apply Z.mul_le_mono_nonneg_r; assumption.
Qed.

(** Division. *)
Lemma f_div (x y : float) :
  fnn x -> fnn y -> fval x < bp 1024 -> 0 < fval y ->
  fnn (x / y) /\
  (forall mc ec, fl mc ec -> fval x * bp 0 <= V mc ec * fval y ->
     fval (x / y) <= V mc ec) /\
  (forall mc ec, fl mc ec -> 0 < mc -> fval y < bp 1024 ->
     V mc ec * fval y <= fval x * bp 0 -> V mc ec <= fval (x / y)).
Proof.
  unfold fnn, fval. rewrite div_spec. unfold SF64div. apply SFdiv_nn.
Qed.

(** The conversion of a count. *)
Lemma f_of_count (T : Z) :
  0 < T < 2 ^ 31 ->
  fnn (of_uint63 (Uint63.of_Z T)) /\
  bp 0 <= fval (of_uint63 (Uint63.of_Z T)) <= bp 31.
Proof.
  intros HT. unfold fnn, fval. rewrite of_uint63_spec, Uint63.of_Z_spec.
  rewrite Z.mod_small.
  - now apply binary_normalize_count.
  - change Uint63.wB with (2 ^ 63). change (2 ^ 31) with 2147483648 in HT.
    change (2 ^ 63) with 9223372036854775808. lia.
Qed.

Lemma ltb_zero_fnn (x : float) :
  (0 <? x)%float = true -> fnn x /\ 0 < fval x.
Proof.
  intros H.
  assert (Hx : fnn x).
  { rewrite ltb_spec, Prim2SF_zero in H. unfold fnn.
    apply nn_valid; [apply Prim2SF_valid | ].
    destruct (Prim2SF x) as [s | [ | ] | | [ | ] m e]; try exact I;
      try reflexivity; discriminate H. }
  split; [assumption | ].
  destruct fnn_zero as [H0 E0]. rewrite <- E0. now apply fnn_ltb.
Qed.

Lemma fval_pos_min (x : float) : fnn x -> 0 < fval x -> bp (-1074) <= fval x.
Proof.
  unfold fnn, fval.
  destruct (Prim2SF x) as [s | [ | ] | | [ | ] m e]; cbn [nn sval];
    try contradiction; try lia.
  - intros _ _. apply bp_le; lia.
  - intros [Hc _] _. now apply cell_pos_value.
Qed.

Lemma fin_le_max (x : float) :
  fnn x -> fval x < bp 1024 -> fval x <= V (2 ^ 53 - 1) 971.
Proof.
  unfold fnn, fval.
  destruct (Prim2SF x) as [s | [ | ] | | [ | ] m e]; cbn [nn sval];
    try contradiction; try lia.
  - intros _ _. apply fl_nonneg. unfold fl.
    change (2 ^ 53) with 9007199254740992. lia.
  - intros [Hc He] _. now apply cell_max_value.
Qed.

(** The coefficient [n / (n + r)]. *)
Lemma f_alpha (n r : float) :
  fnn n -> fval n < bp 1024 -> fnn r -> 0 < fval r ->
  fnn (n / (n + r)) /\ fval (n / (n + r)) <= bp 0 /\
  (fval n < bp (-1043) -> fval (n / (n + r)) < bp 0).
Proof.
  intros Hn Hfn Hr Hr0.
  destruct (f_add n r Hn Hr) as (Hs & Hsn & Hsr).
  destruct (f_div n (n + r) Hn Hs Hfn ltac:(lia)) as (Ha & Hhi & _).
  pose proof (bp_pos 0 ltac:(lia)) as HP0.
  pose proof (fval_nonneg n Hn) as Hn0.
  split; [assumption | ]. split.
  - replace (bp 0) with (V 1 0) by (unfold V; lia).
    apply Hhi.
    + unfold fl. change (2 ^ 53) with 9007199254740992. lia.
    + unfold V. rewrite Z.mul_1_l, (Z.mul_comm (bp 0)).
      apply Z.mul_le_mono_nonneg_r; lia.
  - intros Hsmall.
    pose proof (bp_pos (-1074) ltac:(lia)) as Hu.
    pose proof (bp_pos (-32) ltac:(lia)) as Hw.
    pose proof (bp_split (-1074) (-1043) ltac:(lia) ltac:(lia)) as E1.
    change (-1043 - -1074) with 31 in E1.
    pose proof (bp_split (-32) 0 ltac:(lia) ltac:(lia)) as E2.
    change (0 - -32) with 32 in E2.
    change (2 ^ 31) with 2147483648 in E1.
    change (2 ^ 32) with 4294967296 in E2.
    destruct (nn_finite_fl _ Hn Hfn) as (mc & ec & [Hmc Hec] & HV & _).
    fold (fval n) in HV.
    assert (HN : V (mc * 2 ^ (ec + 1074)) (-1074) = fval n).
    { rewrite <- HV, <- V_shift by lia. f_equal. lia. }
    set (N := mc * 2 ^ (ec + 1074)) in *.
    assert (HN0 : 0 <= N).
    { unfold N. pose proof (pow2_pos (ec + 1074) ltac:(lia)). nia. }
    assert (HN1 : N < 2147483648).
    { unfold V in HN. nia. }
    assert (Hlow : fval n + bp (-1074) <= fval (n + r)).
    { replace (fval n + bp (-1074)) with (V (N + 1) (-1074))
        by (rewrite V_succ; lia).
      apply f_add_low; try assumption.
      - unfold fl. change (2 ^ 53) with 9007199254740992. lia.
      - lia.
      - rewrite V_succ, HN. pose proof (fval_pos_min r Hr Hr0). lia. }
    assert (Hle : fval (n / (n + r)) <= V 4294967295 (-32)).
    { apply Hhi.
      - unfold fl. change (2 ^ 53) with 9007199254740992. lia.
      - unfold V. rewrite E2.
        replace (fval n * (4294967296 * bp (-32)))
          with (4294967296 * fval n * bp (-32)) by ring.
        replace (4294967295 * bp (-32) * fval (n + r))
          with (4294967295 * fval (n + r) * bp (-32)) by ring.
        apply Z.mul_le_mono_nonneg_r; lia. }
    unfold V in Hle. lia.
Qed.

Lemma f_of_int (T : Z) :
  0 < T < 2 ^ 31 ->
  fnn (float_of_Z T) /\ bp 0 <= fval (float_of_Z T) <= bp 31.
Proof.
  intros HT. destruct T as [ | p | p]; try lia. cbn [float_of_Z].
  now apply f_of_count.
Qed.

(** The maximum likelihood weight [n / T]. *)
Lemma f_ml (n t : float) :
  fnn n -> fval n < bp 1024 -> fnn t -> bp 0 <= fval t <= bp 31 ->
  fnn (n / t) /\ fval (n / t) <= fval n /\
  (bp (-1043) <= fval n -> bp (-1074) <= fval (n / t)).
Proof.
  intros Hn Hfn Ht Htv.
  pose proof (bp_pos 0 ltac:(lia)) as HP0.
  pose proof (fval_nonneg n Hn) as Hn0.
  pose proof (bp_lt 31 1024 ltac:(lia) ltac:(lia)) as Ht1.
  destruct (f_div n t Hn Ht Hfn ltac:(lia)) as (Ha & Hhi & Hlo).
  split; [assumption | ]. split.
  - destruct (nn_finite_fl _ Hn Hfn) as (mc & ec & Hf & HV & _).
    fold (fval n) in HV. rewrite <- HV. apply Hhi; [assumption | ].
    rewrite HV. apply Z.mul_le_mono_nonneg_l; lia.
  - intros Hbig.
    replace (bp (-1074)) with (V 1 (-1074)) by (unfold V; lia).
    apply Hlo.
    + unfold fl. change (2 ^ 53) with 9007199254740992. lia.
    + lia.
    + lia.
    + unfold V. rewrite Z.mul_1_l.
      pose proof (bp_mul (-1074) 31 ltac:(lia) ltac:(lia) ltac:(lia)) as E.
      change (-1074 + 31) with (-1043) in E.
      pose proof (bp_pos (-1074) ltac:(lia)).
      apply Z.le_trans with (bp (-1074) * bp 31).
      * apply Z.mul_le_mono_nonneg_l; lia.
      * rewrite E. apply Z.mul_le_mono_nonneg_r; lia.
Qed.

(** The blend [a * ml + (1 - a) * pw]. *)
Lemma f_blend (a ml pw : float) :
  fnn a -> fval a <= bp 0 -> fnn ml -> fval ml < bp 1024 ->
  fnn pw -> fval pw <= bp 1 ->
  fnn (a * ml + (1 - a) * pw) /\
  fval (a * ml + (1 - a) * pw) < bp 1024 /\
  (fval a < bp 0 -> bp (-54) <= fval pw -> 0 < fval (a * ml + (1 - a) * pw)) /\
  (fval a = bp 0 -> bp (-1074) <= fval ml ->
   0 < fval (a * ml + (1 - a) * pw)).
Proof.
  intros Ha Hale Hml Hfml Hpw Hpwle.
  pose proof (bp_pos 0 ltac:(lia)) as HP0.
  pose proof (bp_lt 0 1024 ltac:(lia) ltac:(lia)) as Hb.
  pose proof (bp_lt 1 1024 ltac:(lia) ltac:(lia)) as Hb1.
  destruct (f_mul_le a ml Ha Hml Hale Hfml) as [Hx Hxle].
  destruct (f_sub_one a Ha Hale) as (Hom & Homle & Homlo).
  destruct (f_mul_le (1 - a) pw Hom Hpw Homle ltac:(lia)) as [Hy Hyle].
  destruct (f_add (a * ml) ((1 - a) * pw) Hx Hy) as (Hbn & Hbx & Hby).
  split; [assumption | ].
  assert (Hfin : fval (a * ml + (1 - a) * pw) <= V (2 ^ 53 - 1) 971).
  { apply f_add_mid; try assumption.
    - unfold cellp. change (2 ^ 53) with 9007199254740992.
      change (2 ^ 52) with 4503599627370496. lia.
    - lia.
    - pose proof (fin_le_max (a * ml) Hx ltac:(lia)).
      pose proof (bp_split 1 2 ltac:(lia) ltac:(lia)) as E.
      change (2 ^ (2 - 1)) with 2 in E.
      pose proof (bp_lt 2 971 ltac:(lia) ltac:(lia)).
      lia. }
  split.
  { pose proof (fl_below_top (2 ^ 53 - 1) 971
                  ltac:(unfold fl; change (2 ^ 53) with 9007199254740992; lia)).
    lia. }
  split.
  - intros Hlt Hbig. specialize (Homlo Hlt).
    destruct (f_mul (1 - a) pw Hom Hpw ltac:(lia) ltac:(lia))
      as (_ & _ & Hlo).
    assert (bp (-107) <= fval ((1 - a) * pw)).
    { replace (bp (-107)) with (V 1 (-107)) by (unfold V; lia).
      apply Hlo.
      - unfold fl. change (2 ^ 53) with 9007199254740992. lia.
      - lia.
      - unfold V. rewrite Z.mul_1_l.
        pose proof (bp_mul (-53) (-54) ltac:(lia) ltac:(lia) ltac:(lia)) as E.
        change (-53 + -54) with (-107) in E. rewrite <- E.
        pose proof (bp_pos (-53) ltac:(lia)).
        pose proof (bp_pos (-54) ltac:(lia)).
        apply Z.mul_le_mono_nonneg; lia. }
    pose proof (bp_pos (-107) ltac:(lia)). lia.
  - intros Heq Hbig.
    destruct (f_mul a ml Ha Hml ltac:(lia) Hfml) as (_ & _ & Hlo).
    assert (bp (-1074) <= fval (a * ml)).
    { replace (bp (-1074)) with (V 1 (-1074)) by (unfold V; lia).
      apply Hlo.
      - unfold fl. change (2 ^ 53) with 9007199254740992. lia.
      - lia.
      - unfold V. rewrite Z.mul_1_l, Heq, (Z.mul_comm (bp 0)).
        apply Z.mul_le_mono_nonneg_r; lia. }
    pose proof (bp_pos (-1074) ltac:(lia)). lia.
Qed.

(** [blitz::sum] of non-negative numbers. *)
Lemma f_sum_nn (l : list float) (acc : float) :
  Forall fnn l -> fnn acc ->
  fnn (fold_left PrimFloat.add l acc) /\
  fval acc <= fval (fold_left PrimFloat.add l acc) /\
  Forall (fun x => fval x <= fval (fold_left PrimFloat.add l acc)) l.
Proof.
  intros Hl. revert acc. induction Hl as [ | x l Hx Hl IH]; intros acc Hacc.
  - cbn [fold_left]. repeat split; [assumption | lia | constructor].
  - cbn [fold_left].
    destruct (f_add acc x Hacc Hx) as (Hs & Hsa & Hsx).
    destruct (IH _ Hs) as (Hf & Hle & Hall).
    repeat split; [assumption | lia | ].
    constructor; [lia | assumption].
Qed.

(** Terms below [2^-54] never take the sum above [1/2]. *)
Lemma f_sum_half (l : list float) (acc : float) :
  Forall (fun x => fnn x /\ fval x < bp (-54)) l ->
  fnn acc -> fval acc <= bp (-1) ->
  fval (fold_left PrimFloat.add l acc) <= bp (-1).
Proof.
  intros Hl. revert acc.
  induction Hl as [ | x l [Hx Hxs] Hl IH]; intros acc Hacc Hle.
  - exact Hle.
  - cbn [fold_left].
    destruct (f_add acc x Hacc Hx) as (Hs & _ & _).
    apply IH; [assumption | ].
    assert (Hc : cellp (2 ^ 52) (-53)).
    { unfold cellp. change (2 ^ 53) with 9007199254740992.
      change (2 ^ 52) with 4503599627370496. lia. }
    assert (HV : V (2 ^ 52) (-53) = bp (-1)).
    { unfold V. symmetry. apply (bp_split (-53) (-1)); lia. }
    rewrite <- HV. apply f_add_mid; try assumption; [lia | ].
    rewrite HV.
    pose proof (bp_split (-54) (-53) ltac:(lia) ltac:(lia)) as E.
    change (2 ^ (-53 - -54)) with 2 in E. lia.
Qed.

(** A sum above [1/2] has a term of [2^-54] at least. *)
Lemma f_sum_big (l : list float) :
  Forall fnn l ->
  bp (-1) < fval (fold_left PrimFloat.add l 0%float) ->
  exists i, (i < length l)%nat /\ bp (-54) <= fval (nth i l 0%float).
Proof.
  intros Hl Hbig.
  destruct (Forall_Exists_dec (fun x => fval x < bp (-54))
              (fun x => Z_lt_dec (fval x) (bp (-54))) l) as [Hall | Hex].
  - exfalso.
    assert (H : Forall (fun x => fnn x /\ fval x < bp (-54)) l).
    { apply Forall_forall. intros x Hin. split.
      - exact (proj1 (Forall_forall _ _) Hl x Hin).
      - exact (proj1 (Forall_forall _ _) Hall x Hin). }
    destruct fnn_zero as [H0 E0].
    pose proof (f_sum_half l 0%float H H0
                  ltac:(rewrite E0; apply Z.lt_le_incl, bp_pos; lia)).
    lia.
  - apply Exists_exists in Hex. destruct Hex as (x & Hin & Hx).
    destruct (In_nth l x 0%float Hin) as (i & Hi & E).
    exists i. split; [assumption | ]. rewrite E. lia.
Qed.

(** The doubles nearest to [0.999999999] and to [1.000000001]. *)
Lemma f_tolerance :
  (fnn 0x1.fffffff768fa1p-1 /\ bp (-1) < fval 0x1.fffffff768fa1p-1) /\
  (fnn 0x1.000000044b83p+0 /\ fval 0x1.000000044b83p+0 <= bp 1).
Proof.
  assert (E1 : Prim2SF 0x1.fffffff768fa1p-1
               = S754_finite false 9007199245733793 (-53)) by reflexivity.
  assert (E2 : Prim2SF 0x1.000000044b83p+0
               = S754_finite false 4503599631874096 (-52)) by reflexivity.
  unfold fnn, fval. rewrite E1, E2. cbn [nn sval]. unfold cellp, V.
  change (2 ^ 52) with 4503599627370496.
  change (2 ^ 53) with 9007199254740992.
  pose proof (bp_split (-53) (-1) ltac:(lia) ltac:(lia)) as H1.
  change (2 ^ (-1 - -53)) with 4503599627370496 in H1.
  pose proof (bp_split (-52) 1 ltac:(lia) ltac:(lia)) as H2.
  change (2 ^ (1 - -52)) with 9007199254740992 in H2.
  pose proof (bp_pos (-53) ltac:(lia)).
  pose proof (bp_pos (-52) ltac:(lia)).
  repeat split; lia.
Qed.

(** ** The weight pass on binary64 *)

Lemma blend_binary64 (tr : MAP_GMMTrainer float) (prior : GMMMachine float)
    (K k : nat) :
  blend tr prior K k =
    (get (m_cache_alpha tr K) k
       * (get (ss_n (m_ss tr)) k / float_of_Z (int32_cast (ss_T (m_ss tr))))
     + (1 - get (m_cache_alpha tr K) k) * get (weights prior) k)%float.
Proof. reflexivity. Qed.

(** The coefficients are in [[0,1]], the blends are non-negative and
    finite, and their sum is positive: a component whose prior weight is
    [2^-54] at least has a positive blend, through the prior weight when
    its coefficient is below 1 and through the maximum likelihood weight
    when it is 1. *)
Lemma weights_safe_core (tr : MAP_GMMTrainer float)
    (prior : GMMMachine float) (K : nat) :
  m_T3_adaptation tr = false ->
  PrimFloat.ltb 0 (relevance_factor tr) = true ->
  (forall k, (k < K)%nat ->
     PrimFloat.leb 0 (get (ss_n (m_ss tr)) k) = true /\
     PrimFloat.is_finite (get (ss_n (m_ss tr)) k) = true) ->
  (0 < ss_T (m_ss tr) < 2 ^ 31) ->
  length (weights prior) = K ->
  (forall k, (k < K)%nat ->
     PrimFloat.leb 0 (get (weights prior) k) = true) ->
  PrimFloat.leb 0x1.fffffff768fa1p-1 (sum (weights prior)) = true ->
  PrimFloat.leb (sum (weights prior)) 0x1.000000044b83p+0 = true ->
  (forall k, (k < K)%nat ->
     fnn (get (m_cache_alpha tr K) k) /\
     fval (get (m_cache_alpha tr K) k) <= bp 0) /\
  (forall k, (k < K)%nat ->
     fnn (blend tr prior K k) /\ fval (blend tr prior K k) < bp 1024 /\
     fval (blend tr prior K k) <= fval (gamma tr prior K)) /\
  fnn (gamma tr prior K) /\ 0 < fval (gamma tr prior K).
Proof.
  intros Hdd Hr Hn HT Hlen Hpw Hlo Hhi.
  destruct (ltb_zero_fnn _ Hr) as [Hrn Hr0].
  destruct f_tolerance as [[Hlon Hlov] [Hhin Hhiv]].
  destruct fnn_zero as [Hz Ez]. destruct fnn_one as [Ho Eo].
  pose proof (bp_pos 0 ltac:(lia)) as HP0.
  (* the occupancies *)
  assert (Hnk : forall k, (k < K)%nat ->
            fnn (get (ss_n (m_ss tr)) k) /\
            fval (get (ss_n (m_ss tr)) k) < bp 1024).
  { intros k Hk. destruct (Hn k Hk) as [H1 H2].
    pose proof (leb_zero_fnn _ H1) as H3.
    split; [assumption | now apply is_finite_fval]. }
  (* the coefficients *)
  assert (Ha : forall k, (k < K)%nat ->
            get (m_cache_alpha tr K) k =
              (get (ss_n (m_ss tr)) k
                 / (get (ss_n (m_ss tr)) k + relevance_factor tr))%float).
  { intros k Hk. rewrite get_m_cache_alpha by assumption. now rewrite Hdd. }
  (* the count *)
  assert (HT' : 0 < int32_cast (ss_T (m_ss tr)) < 2 ^ 31)
    by (rewrite int32_cast_small; lia).
  destruct (f_of_int _ HT') as [HTn HTv].
  (* the prior weights *)
  assert (Hpwn : Forall fnn (weights prior)).
  { apply Forall_forall. intros x Hin.
    destruct (In_nth _ _ 0%float Hin) as (i & Hi & <-).
    apply leb_zero_fnn. apply Hpw. lia. }
  destruct (f_sum_nn (weights prior) 0%float Hpwn Hz) as (Hsn & _ & Hpwle).
  change (fold_left PrimFloat.add (weights prior) 0%float)
    with (sum (weights prior)) in Hsn, Hpwle.
  apply (fnn_leb _ _ Hlon Hsn) in Hlo. apply (fnn_leb _ _ Hsn Hhin) in Hhi.
  assert (Hpwk : forall k, (k < K)%nat ->
            fnn (get (weights prior) k) /\
            fval (get (weights prior) k) <= bp 1).
  { intros k Hk. split; [apply leb_zero_fnn, Hpw, Hk | ].
    assert (Hin : In (get (weights prior) k) (weights prior))
      by (apply nth_In; lia).
    pose proof (proj1 (Forall_forall _ _) Hpwle _ Hin) as Hle.
    cbv beta in Hle. lia. }
  assert (Hbigpw : exists k, (k < K)%nat /\
                     bp (-54) <= fval (get (weights prior) k)).
  { destruct (f_sum_big (weights prior) Hpwn) as (i & Hi & Hb).
    - change (fold_left PrimFloat.add (weights prior) 0%float)
        with (sum (weights prior)). lia.
    - exists i. split; [lia | exact Hb]. }
  (* one component *)
  assert (Hcomp : forall k, (k < K)%nat ->
            (fnn (get (m_cache_alpha tr K) k) /\
             fval (get (m_cache_alpha tr K) k) <= bp 0) /\
            (fnn (blend tr prior K k) /\
             fval (blend tr prior K k) < bp 1024) /\
            (bp (-54) <= fval (get (weights prior) k) ->
             0 < fval (blend tr prior K k))).
  { intros k Hk. destruct (Hnk k Hk) as [Hn1 Hn2].
    destruct (Hpwk k Hk) as [Hp1 Hp2].
    destruct (f_alpha _ _ Hn1 Hn2 Hrn Hr0) as (Ha1 & Ha2 & Ha3).
    rewrite <- (Ha k Hk) in Ha1, Ha2, Ha3.
    destruct (f_ml _ _ Hn1 Hn2 HTn HTv) as (Hm1 & Hm2 & Hm3).
    destruct (f_blend _ _ _ Ha1 Ha2 Hm1 ltac:(lia) Hp1 Hp2)
      as (Hb1 & Hb2 & Hb3 & Hb4).
    rewrite <- blend_binary64 in Hb1, Hb2, Hb3, Hb4.
    split; [split; assumption | ]. split; [split; assumption | ].
    intros Hbig.
    destruct (Z_lt_dec (fval (get (m_cache_alpha tr K) k)) (bp 0))
      as [Hlt | Hge].
    - now apply Hb3.
    - apply Hb4; [lia | ].
      apply Hm3.
      destruct (Z_lt_dec (fval (get (ss_n (m_ss tr)) k)) (bp (-1043)))
        as [Hsmall | ]; [ | lia].
      specialize (Ha3 Hsmall). lia. }
  split; [intros k Hk; apply (Hcomp k Hk) | ].
  (* the divisor *)
  assert (Hg : gamma tr prior K
               = fold_left PrimFloat.add (tabulate K (blend tr prior K))
                   0%float).
  { unfold gamma. rewrite blend_weights_blend. reflexivity. }
  assert (Hbl : Forall fnn (tabulate K (blend tr prior K))).
  { apply Forall_forall. intros x Hin. unfold tabulate in Hin.
    apply in_map_iff in Hin. destruct Hin as (i & <- & Hi).
    apply in_seq in Hi. apply (Hcomp i). lia. }
  destruct (f_sum_nn _ 0%float Hbl Hz) as (Hgn & _ & Hgle).
  rewrite <- Hg in Hgn, Hgle.
  assert (Hble : forall k, (k < K)%nat ->
            fval (blend tr prior K k) <= fval (gamma tr prior K)).
  { intros k Hk.
    assert (Hin : In (blend tr prior K k) (tabulate K (blend tr prior K))).
    { unfold tabulate. apply in_map, in_seq. clear - Hk. lia. }
    exact (proj1 (Forall_forall _ _) Hgle _ Hin). }
  split.
  { intros k Hk. destruct (Hcomp k Hk) as (_ & [Hb1 Hb2] & _).
    split; [assumption | ]. split; [assumption | now apply Hble]. }
  split; [assumption | ].
  destruct Hbigpw as (k & Hk & Hbig).
  destruct (Hcomp k Hk) as (_ & _ & Hpos). specialize (Hpos Hbig).
  pose proof (Hble k Hk) as Hle. clear - Hpos Hle. lia.
Qed.

(** C10, as the code has it.  In data-dependent mode, with
    [relevance_factor > 0], every [n[k]] non-negative and finite, a sample
    count [0 < T < 2^31] (which the 32-bit cast keeps), and [K] prior
    weights that are non-negative and sum to 1 within [1e-9] (the sum is
    [blitz::sum]'s, between the doubles nearest to [0.999999999] and to
    [1.000000001]): on binary64 every [alpha[k]] is in [[0,1]], the divisor
    [gamma] is strictly positive, and every committed weight is
    non-negative. *)
Theorem weights_safe (tr : MAP_GMMTrainer float)
    (prior gmm : GMMMachine float) :
  let K := n_gaussians gmm in
  m_prior_gmm tr = Some prior ->
  update_weights tr = true ->
  m_T3_adaptation tr = false ->
  PrimFloat.ltb 0 (relevance_factor tr) = true ->
  (forall k, (k < K)%nat ->
     PrimFloat.leb 0 (get (ss_n (m_ss tr)) k) = true /\
     PrimFloat.is_finite (get (ss_n (m_ss tr)) k) = true) ->
  (0 < ss_T (m_ss tr) < 2 ^ 31) ->
  length (weights prior) = K ->
  (forall k, (k < K)%nat ->
     PrimFloat.leb 0 (get (weights prior) k) = true) ->
  PrimFloat.leb 0x1.fffffff768fa1p-1 (sum (weights prior)) = true ->
  PrimFloat.leb (sum (weights prior)) 0x1.000000044b83p+0 = true ->
  (forall k, (k < K)%nat ->
     PrimFloat.leb 0 (get (m_cache_alpha tr K) k) = true /\
     PrimFloat.leb (get (m_cache_alpha tr K) k) 1 = true) /\
  PrimFloat.ltb 0 (gamma tr prior K) = true /\
  (forall k, (k < K)%nat ->
     PrimFloat.leb 0 (get (weights (snd (mStep tr gmm))) k) = true).
Proof.
  intros K Hp Hu Hdd Hr Hn HT Hlen Hpw Hlo Hhi.
  destruct (weights_safe_core tr prior K Hdd Hr Hn HT Hlen Hpw Hlo Hhi)
    as (Ha & Hb & Hgn & Hg0).
  destruct fnn_zero as [Hz Ez]. destruct fnn_one as [Ho Eo].
  split; [ | split].
  - intros k Hk. destruct (Ha k Hk) as [Ha1 Ha2]. split.
    + now apply fnn_leb_zero.
    + apply fnn_leb; [assumption | assumption | ]. now rewrite Eo.
  - apply fnn_ltb; [assumption | assumption | ]. now rewrite Ez.
  - intros k Hk.
    destruct (@weight_update_any_carrier float Binary64 tr prior gmm Hp Hu)
      as (_ & _ & Hw).
    rewrite (Hw k Hk). fold K.
    destruct (Hb k Hk) as (Hb1 & Hb2 & _).
    change (ddiv (blend tr prior K k) (gamma tr prior K))
      with (blend tr prior K k / gamma tr prior K)%float.
    apply fnn_leb_zero.
    apply (f_div _ _ Hb1 Hgn Hb2 Hg0).
Qed.

(** X15. In data-dependent mode, with [relevance_factor > 0], every
    [n[k]] non-negative and finite, [0 < T < 2^31], and [K] non-negative
    prior weights whose sum is 1 within [1e-9], no weight that [mStep]
    commits exceeds 1 on binary64: a blend is one of the terms of the sum
    that divides it, and a sum of non-negative doubles is not below any of
    its terms. *)
Theorem committed_weights_at_most_one (tr : MAP_GMMTrainer float)
    (prior gmm : GMMMachine float) :
  let K := n_gaussians gmm in
  m_prior_gmm tr = Some prior ->
  update_weights tr = true ->
  m_T3_adaptation tr = false ->
  PrimFloat.ltb 0 (relevance_factor tr) = true ->
  (forall k, (k < K)%nat ->
     PrimFloat.leb 0 (get (ss_n (m_ss tr)) k) = true /\
     PrimFloat.is_finite (get (ss_n (m_ss tr)) k) = true) ->
  (0 < ss_T (m_ss tr) < 2 ^ 31) ->
  length (weights prior) = K ->
  (forall k, (k < K)%nat ->
     PrimFloat.leb 0 (get (weights prior) k) = true) ->
  PrimFloat.leb 0x1.fffffff768fa1p-1 (sum (weights prior)) = true ->
  PrimFloat.leb (sum (weights prior)) 0x1.000000044b83p+0 = true ->
  forall k, (k < K)%nat ->
    PrimFloat.leb (get (weights (snd (mStep tr gmm))) k) 1 = true.
Proof.
  intros K Hp Hu Hdd Hr Hn HT Hlen Hpw Hlo Hhi k Hk.
  destruct (weights_safe_core tr prior K Hdd Hr Hn HT Hlen Hpw Hlo Hhi)
    as (_ & Hb & Hgn & Hg0).
  destruct fnn_one as [Ho Eo].
  destruct (@weight_update_any_carrier float Binary64 tr prior gmm Hp Hu)
    as (_ & _ & Hw).
  rewrite (Hw k Hk). fold K.
  destruct (Hb k Hk) as (Hb1 & Hb2 & Hb3).
  change (ddiv (blend tr prior K k) (gamma tr prior K))
    with (blend tr prior K k / gamma tr prior K)%float.
  destruct (f_div _ _ Hb1 Hgn Hb2 Hg0) as (Hwn & Hhigh & _).
  apply fnn_leb; [assumption | assumption | ]. rewrite Eo.
  replace (bp 0) with (V 1 0) by (unfold V; lia).
  apply Hhigh.
  - unfold fl. change (2 ^ 53) with 9007199254740992. lia.
  - unfold V. rewrite Z.mul_1_l, (Z.mul_comm (bp 0)).
    apply Z.mul_le_mono_nonneg_r; [ | assumption].
    apply Z.lt_le_incl, bp_pos. lia.
Qed.

End Binary64Bounds.

Set Implicit Arguments.

(** ** The code on the concrete inputs *)

Lemma float_neq (x y : float) : Prim2SF x <> Prim2SF y -> x <> y.
Proof.
  intros Hne Heq. apply Hne. now rewrite Heq.
Qed.

(** Scenario A of the specification: [alpha = 0.5], the new mean is 0.5
    and the new variance 1.25; all of it is exact in binary64. *)
Example scenario_A_result :
  m_cache_alpha scenario_A 1 = [0.5%float] /\
  mStep scenario_A (machine1 1%float 0%float 1%float) =
    (Returned, machine1 1%float 0.5%float 1.25%float).
Proof.
  split; vm_compute; reflexivity.
Qed.

(** C1 fails on the code, in two ways. With a threshold of 0 (scenario B)
    a component with [n[k] == 0] is not below the threshold: it is blended,
    [0/0] enters, and mean and variance are NaN, not the prior's 0 and 1.
    With a threshold of 1 (scenario C) it takes the low-occupancy branch:
    the mean is the prior's 2, but the variance is
    [1 + 2 - 2^2 = -1], not the prior's 1. *)
Lemma zero_occupancy_counterexample :
  (m_prior_gmm scenario_B = Some (machine1 1%float 0%float 1%float) /\
   update_means scenario_B = true /\
   update_variances scenario_B = true /\
   get (ss_n (m_ss scenario_B)) 0 = 0%float /\
   PrimFloat.leb 0%float
     (m_mean_var_update_responsibilities_threshold scenario_B) = true /\
   snd (mStep scenario_B (machine1 1%float 0%float 1%float)) =
     machine1 1%float nan nan /\
   nan <> 0%float /\ nan <> 1%float)
  /\
  (m_prior_gmm scenario_C = Some (machine1 1%float 2%float 1%float) /\
   update_means scenario_C = true /\
   update_variances scenario_C = true /\
   get (ss_n (m_ss scenario_C)) 0 = 0%float /\
   PrimFloat.leb 0%float
     (m_mean_var_update_responsibilities_threshold scenario_C) = true /\
   get2 (means (snd (mStep scenario_C (machine1 1%float 2%float 1%float))))
        0 0 = 2%float /\
   get2 (variances (snd (mStep scenario_C (machine1 1%float 2%float 1%float))))
        0 0 = (-1)%float /\
   (-1)%float <> 1%float).
Proof.
  repeat split; try (vm_compute; reflexivity);
    apply float_neq; vm_compute; discriminate.
Qed.

(** C3, on the code: the maximum likelihood weight of line 78 is [n[k]]
    over [(int32_t) T], not over [T].  While [0 <= T < 2^31] the cast keeps
    [T], and the committed weight is the stated one: the blend of [n[k] / T]
    with the prior weight, over the sum of the [K] blends (on any carrier).
    Scenario W has [T = 2^31] samples, all on component 0, and
    [alpha = [1/2, 0]]: the cast is [-2^31], the maximum likelihood weight
    of component 0 is [-1] where [n[0] / T] is 1, and [mStep] commits the
    weights [-1] and [2] where the blend of [n[k] / T] with the prior
    weights, renormalized, gives 3/5 and 2/5 (the doubles nearest to
    them). *)
Theorem weight_update_truncates_T :
  (forall (F : Type) (ops : DoubleOps F) (tr : MAP_GMMTrainer F)
          (prior gmm : GMMMachine F),
     m_prior_gmm tr = Some prior ->
     update_weights tr = true ->
     (0 <= ss_T (m_ss tr) < 2 ^ 31)%Z ->
     forall k, k < n_gaussians gmm ->
       get (weights (snd (mStep tr gmm))) k
         = stated_weight tr prior (n_gaussians gmm) k) /\
  m_prior_gmm scenario_W = Some (machine2 0.5%float 0.5%float) /\
  update_weights scenario_W = true /\
  ss_T (m_ss scenario_W) = (2 ^ 31)%Z /\
  int32_cast (ss_T (m_ss scenario_W)) = (- 2 ^ 31)%Z /\
  m_cache_alpha scenario_W 2 = [0.5%float; 0%float] /\
  m_cache_ml_weights scenario_W 2 = [(-1)%float; neg_zero] /\
  weights (snd (mStep scenario_W (machine2 0.5%float 0.5%float))) =
    [(-1)%float; 2%float] /\
  stated_weight scenario_W (machine2 0.5%float 0.5%float) 2 0 =
    0x1.3333333333333p-1%float /\
  stated_weight scenario_W (machine2 0.5%float 0.5%float) 2 1 =
    0x1.999999999999ap-2%float /\
  get (weights (snd (mStep scenario_W (machine2 0.5%float 0.5%float)))) 0
    <> stated_weight scenario_W (machine2 0.5%float 0.5%float) 2 0.
Proof.
  split.
  - intros F ops tr prior gmm Hp Hu HT k Hk.
    destruct (@weight_update_any_carrier F ops tr prior gmm Hp Hu)
      as (Hg & _ & Hw).
    assert (Hb : forall i, blend tr prior (n_gaussians gmm) i
                           = stated_blend tr prior (n_gaussians gmm) i).
    { intros i. unfold blend, stated_blend.
      rewrite int32_cast_small by lia. reflexivity. }
    rewrite (Hw k Hk), Hg. unfold stated_weight. rewrite (Hb k).
    now rewrite (tabulate_ext (blend tr prior (n_gaussians gmm))
                   (stated_blend tr prior (n_gaussians gmm))
                   (fun i _ => Hb i)).
  - repeat split; try (vm_compute; reflexivity).
    apply float_neq. vm_compute. discriminate.
Qed.

(** C10 fails on the code in three ways.  Scenario R meets every hypothesis
    of the claim; [n + relevance_factor] rounds to [n], and [alpha] is 1,
    not below 1.  Scenario W has [T = 2^31 > 0]: the 32-bit cast of [T] is
    negative and the weight committed for component 0 is [-1].  In scenario
    I the occupancy is [+infinity], which is [>= 0], and [alpha] is NaN:
    neither [0 <= alpha] nor [alpha < 1] holds. *)
Lemma weights_safe_counterexample :
  (m_prior_gmm scenario_R = Some (machine1 1%float 0%float 1%float) /\
   m_T3_adaptation scenario_R = false /\
   PrimFloat.ltb 0 (relevance_factor scenario_R) = true /\
   PrimFloat.leb 0 (get (ss_n (m_ss scenario_R)) 0) = true /\
   (0 < ss_T (m_ss scenario_R) < 2 ^ 31)%Z /\
   PrimFloat.leb 0 (get (weights (machine1 1%float 0%float 1%float)) 0)
     = true /\
   sum (weights (machine1 1%float 0%float 1%float)) = 1%float /\
   get (m_cache_alpha scenario_R 1) 0 = 1%float /\
   PrimFloat.ltb (get (m_cache_alpha scenario_R 1) 0) 1 = false)
  /\
  (m_prior_gmm scenario_W = Some (machine2 0.5%float 0.5%float) /\
   update_weights scenario_W = true /\
   m_T3_adaptation scenario_W = false /\
   PrimFloat.ltb 0 (relevance_factor scenario_W) = true /\
   PrimFloat.leb 0 (get (ss_n (m_ss scenario_W)) 0) = true /\
   PrimFloat.leb 0 (get (ss_n (m_ss scenario_W)) 1) = true /\
   (0 < ss_T (m_ss scenario_W))%Z /\
   PrimFloat.leb 0 (get (weights (machine2 0.5%float 0.5%float)) 0) = true /\
   PrimFloat.leb 0 (get (weights (machine2 0.5%float 0.5%float)) 1) = true /\
   sum (weights (machine2 0.5%float 0.5%float)) = 1%float /\
   get (weights (snd (mStep scenario_W (machine2 0.5%float 0.5%float)))) 0
     = (-1)%float /\
   PrimFloat.leb 0
     (get (weights (snd (mStep scenario_W (machine2 0.5%float 0.5%float)))) 0)
     = false)
  /\
  (m_prior_gmm scenario_I = Some (machine1 1%float 0%float 1%float) /\
   m_T3_adaptation scenario_I = false /\
   PrimFloat.ltb 0 (relevance_factor scenario_I) = true /\
   PrimFloat.leb 0 (get (ss_n (m_ss scenario_I)) 0) = true /\
   (0 < ss_T (m_ss scenario_I) < 2 ^ 31)%Z /\
   sum (weights (machine1 1%float 0%float 1%float)) = 1%float /\
   PrimFloat.leb 0 (get (m_cache_alpha scenario_I 1) 0) = false /\
   PrimFloat.ltb (get (m_cache_alpha scenario_I 1) 0) 1 = false).
Proof.
  repeat split; vm_compute; reflexivity.
Qed.

(** ** The theorems at the concrete inputs *)

Lemma adaptation_coefficient_witness :
  m_prior_gmm scenario_A = Some (machine1 1%float 0%float 1%float) /\
  get (m_cache_alpha scenario_A 1) 0 = 0.5%float /\
  get2 (means (snd (mStep scenario_A (machine1 1%float 0%float 1%float))))
       0 0 = 0.5%float.
Proof.
  split; [reflexivity | ].
  destruct (adaptation_coefficient scenario_A
              (machine1 1%float 0%float 1%float) eq_refl)
    as ((_ & Ha) & _ & Hm & _).
  split.
  - refine (eq_trans (Ha 0 (Nat.lt_0_succ 0)) _). vm_compute. reflexivity.
  - refine (eq_trans (Hm eq_refl 0 0 (Nat.lt_0_succ 0) (Nat.lt_0_succ 0)) _).
    vm_compute. reflexivity.
Defined.

Lemma weight_update_truncates_T_witness :
  (0 <= ss_T (m_ss scenario_S) < 2 ^ 31)%Z /\
  get (weights (snd (mStep scenario_S (machine2 0.5%float 0.5%float)))) 0
    = stated_weight scenario_S (machine2 0.5%float 0.5%float) 2 0.
Proof.
  assert (HT : (0 <= ss_T (m_ss scenario_S) < 2 ^ 31)%Z) by (cbn; lia).
  split; [exact HT | ].
  apply (proj1 weight_update_truncates_T float Binary64 scenario_S
           (machine2 0.5%float 0.5%float) (machine2 0.5%float 0.5%float)
           eq_refl eq_refl HT 0).
  cbn. lia.
Defined.

Lemma weights_safe_witness :
  (PrimFloat.leb 0 (get (m_cache_alpha scenario_S 2) 0) = true /\
   PrimFloat.leb (get (m_cache_alpha scenario_S 2) 0) 1 = true) /\
  PrimFloat.ltb 0 (gamma scenario_S (machine2 0.5%float 0.5%float) 2) = true /\
  PrimFloat.leb 0
    (get (weights (snd (mStep scenario_S (machine2 0.5%float 0.5%float)))) 1)
    = true.
Proof.
  destruct (@weights_safe scenario_S (machine2 0.5%float 0.5%float)
              (machine2 0.5%float 0.5%float)) as (Ha & Hg & Hw).
  - reflexivity.
  - reflexivity.
  - reflexivity.
  - reflexivity.
  - intros [ | [ | k]] Hk.
    + split; reflexivity.
    + split; reflexivity.
    + cbn in Hk. lia.
  - cbn. lia.
  - reflexivity.
  - intros [ | [ | k]] Hk.
    + reflexivity.
    + reflexivity.
    + cbn in Hk. lia.
  - reflexivity.
  - reflexivity.
  - split; [ | split].
    + exact (Ha 0 ltac:(cbn; lia)).
    + exact Hg.
    + exact (Hw 1 ltac:(cbn; lia)).
Defined.

Lemma committed_weights_at_most_one_witness :
  PrimFloat.leb
    (get (weights (snd (mStep scenario_S (machine2 0.5%float 0.5%float)))) 1)
    1 = true.
Proof.
  apply (@committed_weights_at_most_one scenario_S
           (machine2 0.5%float 0.5%float) (machine2 0.5%float 0.5%float)).
  - reflexivity.
  - reflexivity.
  - reflexivity.
  - reflexivity.
  - intros [ | [ | k]] Hk.
    + split; reflexivity.
    + split; reflexivity.
    + cbn in Hk. lia.
  - cbn. lia.
  - reflexivity.
  - intros [ | [ | k]] Hk.
    + reflexivity.
    + reflexivity.
    + cbn in Hk. lia.
  - reflexivity.
  - reflexivity.
  - cbn. lia.
Defined.


Lemma mean_update_witness :
  m_prior_gmm scenario_A = Some (machine1 1%float 0%float 1%float) /\
  update_means scenario_A = true /\
  get2 (means (snd (mStep scenario_A (machine1 1%float 0%float 1%float))))
       0 0 = 0.5%float.
Proof.
  split; [reflexivity | split; [reflexivity | ]].
  destruct (mean_update scenario_A (machine1 1%float 0%float 1%float)
              eq_refl eq_refl) as [_ Hrow].
  destruct (Hrow 0 (Nat.lt_0_succ 0)) as [_ Hget].
  rewrite (Hget 0 (Nat.lt_0_succ 0)).
  vm_compute. reflexivity.
Defined.

Lemma variance_update_witness :
  m_prior_gmm scenario_A = Some (machine1 1%float 0%float 1%float) /\
  update_variances scenario_A = true /\
  PrimFloat.leb (m_mean_var_update_responsibilities_threshold scenario_A)
                (get (ss_n (m_ss scenario_A)) 0) = true /\
  get2 (variances (snd (mStep scenario_A (machine1 1%float 0%float 1%float))))
       0 0 = 1.25%float.
Proof.
  split; [reflexivity | split; [reflexivity | split; [reflexivity | ]]].
  destruct (variance_update scenario_A (machine1 1%float 0%float 1%float)
              eq_refl eq_refl) as (_ & _ & Hget).
  destruct (Hget 0 0 (Nat.lt_0_succ 0) (Nat.lt_0_succ 0)) as [Hblend _].
  rewrite (Hblend eq_refl).
  vm_compute. reflexivity.
Defined.

Lemma mStep_without_prior_witness :
  m_prior_gmm (MAP_GMMTrainer_new 16%float true true true 0%float) = None /\
  mStep (MAP_GMMTrainer_new 16%float true true true 0%float)
        (machine1 1%float 0%float 1%float) =
    (Thrown NoPriorGMM, machine1 1%float 0%float 1%float).
Proof.
  split; [reflexivity | ].
  destruct (mStep_without_prior
              (MAP_GMMTrainer_new 16%float true true true 0%float)
              (machine1 1%float 0%float 1%float) eq_refl) as (Hfst & Hsnd & _).
  rewrite (surjective_pairing (mStep _ _)), Hfst, Hsnd. reflexivity.
Defined.

Lemma zero_occupancy_mean_witness :
  get (ss_n (m_ss scenario_C)) 0 = 0%float /\
  PrimFloat.ltb 0%float
    (m_mean_var_update_responsibilities_threshold scenario_C) = true /\
  get2 (means (snd (mStep scenario_C (machine1 1%float 5%float 5%float)))) 0 0
    = 2%float.
Proof.
  split; [reflexivity | split; [reflexivity | ]].
  rewrite (@zero_occupancy_mean float Binary64 scenario_C
             (machine1 1%float 2%float 1%float)
             (machine1 1%float 5%float 5%float) 0 0
             eq_refl eq_refl (Nat.lt_0_succ 0) (Nat.lt_0_succ 0)
             eq_refl eq_refl).
  reflexivity.
Defined.

(** * Further properties of the trainer *)

Section Composition.

Context {F : Type} `{DoubleOps F}.

Lemma new_variances_means (tr : MAP_GMMTrainer F)
    (prior g1 g2 : GMMMachine F) (K D : nat) :
  means g1 = means g2 ->
  new_variances tr prior g1 K D = new_variances tr prior g2 K D.
Proof.
  intros Hm. unfold new_variances, getMeans. now rewrite Hm.
Qed.

Lemma GMMMachine_eq (g1 g2 : GMMMachine F) :
  n_gaussians g1 = n_gaussians g2 ->
  n_inputs g1 = n_inputs g2 ->
  weights g1 = weights g2 ->
  means g1 = means g2 ->
  variances g1 = variances g2 ->
  g1 = g2.
Proof.
  destruct g1, g2; cbn; intros; subst; reflexivity.
Qed.

Lemma mStep_shape (tr : MAP_GMMTrainer F) (gmm : GMMMachine F) :
  n_gaussians (snd (mStep tr gmm)) = n_gaussians gmm /\
  n_inputs (snd (mStep tr gmm)) = n_inputs gmm.
Proof.
  unfold mStep. destruct (m_prior_gmm tr) as [prior | ]; cbn [snd]; auto.
  destruct (variances_pass_shape tr prior
              (means_pass tr prior (weights_pass tr prior gmm)))
    as (-> & -> & _).
  destruct (means_pass_shape tr prior (weights_pass tr prior gmm))
    as (-> & -> & _).
  destruct (weights_pass_shape tr prior gmm) as (-> & -> & _). auto.
Qed.

Lemma mStep_outcome (tr : MAP_GMMTrainer F) (g1 g2 : GMMMachine F) :
  fst (mStep tr g1) = fst (mStep tr g2).
Proof.
  unfold mStep. now destruct (m_prior_gmm tr).
Qed.

(** X1. [mStep] is idempotent: a second call on the same statistics (no
    E-step in between) ends the same way and leaves the model exactly as the
    first call left it, whatever the flags; the variance pass reads the
    means the first call committed, and these are the ones the second call
    commits again. *)
Theorem mStep_idempotent (tr : MAP_GMMTrainer F) (gmm : GMMMachine F) :
  mStep tr (snd (mStep tr gmm)) = mStep tr gmm.
Proof.
  rewrite (surjective_pairing (mStep tr (snd (mStep tr gmm)))).
  rewrite (surjective_pairing (mStep tr gmm)) at 3.
  f_equal; [apply mStep_outcome | ].
  destruct (m_prior_gmm tr) as [prior | ] eqn:Hp.
  - destruct (mStep_shape tr gmm) as [HK HD].
    pose proof (mStep_means tr gmm Hp) as Hm.
    apply GMMMachine_eq.
    + rewrite !(proj1 (mStep_shape _ _)). reflexivity.
    + rewrite !(proj2 (mStep_shape _ _)). reflexivity.
    + pose proof (mStep_weights tr gmm Hp) as Hw.
      rewrite (mStep_weights tr (snd (mStep tr gmm)) Hp), HK.
      destruct (update_weights tr); [now rewrite Hw | reflexivity].
    + rewrite (mStep_means tr (snd (mStep tr gmm)) Hp), HK, HD.
      destruct (update_means tr); [now rewrite Hm | reflexivity].
    + assert (Hmm : means (snd (mStep tr (snd (mStep tr gmm))))
                    = means (snd (mStep tr gmm))).
      { rewrite (mStep_means tr (snd (mStep tr gmm)) Hp), HK, HD.
        destruct (update_means tr); [now rewrite Hm | reflexivity]. }
      pose proof (mStep_variances tr gmm Hp) as Hv.
      rewrite (mStep_variances tr (snd (mStep tr gmm)) Hp), HK, HD.
      destruct (update_variances tr); [ | reflexivity].
      rewrite Hv. now apply new_variances_means.
  - unfold mStep. rewrite Hp. reflexivity.
Qed.

(** X2. With the three updates enabled the model [mStep] leaves is a
    function of the prior, the statistics and the shape of the model only:
    two models of the same shape end up equal, whatever weights, means and
    variances they came with. *)
Theorem mStep_forgets_model (tr : MAP_GMMTrainer F)
    (prior g1 g2 : GMMMachine F) :
  m_prior_gmm tr = Some prior ->
  update_weights tr = true ->
  update_means tr = true ->
  update_variances tr = true ->
  n_gaussians g1 = n_gaussians g2 ->
  n_inputs g1 = n_inputs g2 ->
  mStep tr g1 = mStep tr g2.
Proof.
  intros Hp Hw Hm Hv HK HD.
  rewrite (surjective_pairing (mStep tr g1)).
  rewrite (surjective_pairing (mStep tr g2)).
  f_equal; [apply mStep_outcome | ].
  assert (Hmeans : means (snd (mStep tr g1)) = means (snd (mStep tr g2))).
  { rewrite (mStep_means tr g1 Hp), (mStep_means tr g2 Hp), Hm, HK, HD.
    reflexivity. }
  apply GMMMachine_eq.
  - now rewrite !(proj1 (mStep_shape _ _)).
  - now rewrite !(proj2 (mStep_shape _ _)).
  - rewrite (mStep_weights tr g1 Hp), (mStep_weights tr g2 Hp), Hw, HK.
    reflexivity.
  - exact Hmeans.
  - rewrite (mStep_variances tr g1 Hp), (mStep_variances tr g2 Hp), Hv, HK, HD.
    now apply new_variances_means.
Qed.

End Composition.

Section Shapes.

Context {F : Type} `{DoubleOps F}.

(** A machine whose arrays have the extents its shape announces. *)
Definition well_shaped (gmm : GMMMachine F) : Prop :=
  length (weights gmm) = n_gaussians gmm /\
  length (means gmm) = n_gaussians gmm /\
  Forall (fun row => length row = n_inputs gmm) (means gmm) /\
  length (variances gmm) = n_gaussians gmm /\
  Forall (fun row => length row = n_inputs gmm) (variances gmm).

Lemma tabulate_nth (A : Type) (l : list A) (d : A) :
  tabulate (length l) (fun i => nth i l d) = l.
Proof.
  apply (nth_ext _ _ d d).
  - apply tabulate_length.
  - intros i Hi. rewrite tabulate_length in Hi. now rewrite nth_tabulate.
Qed.

Lemma tabulate2_get2 (a : list (list F)) (K D : nat) :
  length a = K ->
  Forall (fun row => length row = D) a ->
  tabulate K (fun i => tabulate D (fun j => get2 a i j)) = a.
Proof.
  intros HK Hrows. subst K.
  rewrite <- (tabulate_nth a []) at 2.
  apply tabulate_ext. intros i Hi.
  assert (Hrow : length (nth i a []) = D).
  { apply (proj1 (Forall_nth _ a) Hrows). exact Hi. }
  rewrite <- Hrow. unfold get2, get. apply tabulate_nth.
Qed.

(** X4. [initialization] on a trainer that holds a prior returns, and turns
    the model into a copy of the prior, when the prior is well shaped and
    has the shape of the model: weights, means and variances are the
    prior's, whatever the model held before. *)
Theorem initialization_copies_prior (tr : MAP_GMMTrainer F)
    (prior gmm : GMMMachine F) :
  m_prior_gmm tr = Some prior ->
  well_shaped prior ->
  n_gaussians prior = n_gaussians gmm ->
  n_inputs prior = n_inputs gmm ->
  fst (fst (initialization tr gmm)) = Returned /\
  snd (initialization tr gmm) = prior.
Proof.
  intros Hp (Hw & Hm & Hmr & Hv & Hvr) HK HD.
  unfold initialization. rewrite Hp. cbn [fst snd].
  split; [reflexivity | ].
  rewrite HK in Hm, Hv. rewrite HD in Hmr, Hvr.
  apply GMMMachine_eq; cbn; auto.
  - unfold getMeans. now apply tabulate2_get2.
  - unfold getVariances. now apply tabulate2_get2.
Qed.

(** X5. How the two passes couple on a component below the threshold: with
    the mean and the variance updates enabled, the mean pass commits the
    prior mean, the variance pass reads it back, and the variance committed
    is [prior.variance + prior.mean - prior.mean^2]. *)
Theorem low_occupancy_variance (tr : MAP_GMMTrainer F)
    (prior gmm : GMMMachine F) (k d : nat) :
  m_prior_gmm tr = Some prior ->
  update_means tr = true ->
  update_variances tr = true ->
  k < n_gaussians gmm ->
  d < n_inputs gmm ->
  dltb (get (ss_n (m_ss tr)) k)
       (m_mean_var_update_responsibilities_threshold tr) = true ->
  get2 (means (snd (mStep tr gmm))) k d = get2 (means prior) k d /\
  get2 (variances (snd (mStep tr gmm))) k d =
    dsub (dadd (get2 (variances prior) k d) (get2 (means prior) k d))
         (pow2 (get2 (means prior) k d)).
Proof.
  intros Hp Hm Hv Hk Hd Hlow.
  assert (Hmean : get2 (means (snd (mStep tr gmm))) k d
                  = get2 (means prior) k d).
  { rewrite (mStep_means tr gmm Hp), Hm.
    rewrite m_cache_new_means_get2 by assumption. now rewrite Hlow. }
  split; [exact Hmean | ].
  rewrite (mStep_variances tr gmm Hp), Hv.
  rewrite new_variances_get2 by assumption.
  now rewrite Hlow, Hmean.
Qed.

End Shapes.

(** * Rescaling of images

    The functions of cxx/ip/ip/scale.h: [scale] on an image without mask,
    and the bilinear interpolation [scaleNoCheck2D_BI] with and without
    masks.  A [blitz::Array<T,2>] is a pair of extents and its rows; arrays
    are zero-based here by construction, which is what [assertZeroBase]
    checks.  The interpolation computes on [double]: besides the four
    operations it takes [floor] and the conversion of a [double] to [int]. *)

Class DoubleFloor (F : Type) : Type := {
  dfloor : F -> F;             (* floor *)
  to_int : F -> Z              (* conversion of a double to int *)
}.

(** [floor] on binary64: a float with a non-negative exponent is an integer
    already; any other has less than [2^53] for integer part, which
    converts back exactly.  Zeros, infinities and NaN are returned as they
    are. *)
Definition float_floor (x : float) : float :=
  match Prim2SF x with
  | S754_finite s m e =>
      if (0 <=? e)%Z then x
      else float_of_Z (Z.shiftl (if s then Zneg m else Zpos m) e)
  | _ => x
  end.

(** The conversion truncates towards zero; the C++ leaves it undefined on
    NaN, on the infinities and outside the range of [int], and 0 stands for
    the first two here. *)
Definition float_to_int (x : float) : Z :=
  match Prim2SF x with
  | S754_finite s m e =>
      if s then (- Z.shiftl (Zpos m) e)%Z else Z.shiftl (Zpos m) e
  | _ => 0%Z
  end.

#[export] Instance Binary64_floor : DoubleFloor float := {|
  dfloor := float_floor;
  to_int := float_to_int
|}.

Module ip.

Import String.

Record Array2 (A : Type) : Type := {
  extent0 : nat;              (* height *)
  extent1 : nat;              (* width *)
  elems : list (list A)
}.

Arguments extent0 {A} _.
Arguments extent1 {A} _.
Arguments elems {A} _.

(** The elements agree with the extents. *)
Definition well_formed {A : Type} (a : Array2 A) : Prop :=
  List.length (elems a) = extent0 a /\
  Forall (fun row => List.length row = extent1 a) (elems a).

(** [a(y, x)] on [int] indices; [d] stands for a read outside the array,
    which the C++ leaves undefined. *)
Definition at2 {A : Type} (d : A) (a : Array2 A) (y x : Z) : A :=
  nth (Z.to_nat x) (nth (Z.to_nat y) (elems a) []) d.

Module Rescale.
Inductive Algorithm : Type := NearestNeighbour | BilinearInterp.
End Rescale.

(** The exceptions of ip/Exception.h that [scale] throws. *)
Inductive Exception : Type :=
  | ParamOutOfBoundaryError (paramname : String.string) (larger : bool)
      (value limit : Z)
  | UnknownScalingAlgorithm.

Inductive result : Type :=
  | Finished
  | Raised (e : Exception).

(** [for (int i = lo; i <= hi; ++i)]. *)
Definition zrange (lo hi : Z) : list Z :=
  map (fun i => (lo + Z.of_nat i)%Z) (seq 0 (Z.to_nat (hi - lo + 1))).

Section Interpolation.

Context {F : Type} `{DoubleOps F} `{DoubleFloor F}.

(** The pixel type and its conversion to [double]. *)
Variable T : Type.
Variable cast : T -> F.

(** [tca::keepInRange] (core/array_index.h is not among the sources). *)
Variable keepInRange : Z -> Z -> Z -> Z.

Definition src_at (src : Array2 T) (y x : Z) : F :=
  match nth_error (nth (Z.to_nat y) (elems src) []) (Z.to_nat x) with
  | Some v => cast v
  | None => d0
  end.

(** Lines 60-61: [(src.extent - 1.) / (dst.extent - 1.)]. *)
Definition ratio (src_extent dst_extent : nat) : F :=
  ddiv (dsub (of_int (Z.of_nat src_extent)) d1)
       (dsub (of_int (Z.of_nat dst_extent)) d1).

(** Lines 63-67 for a row [y], lines 69-73 for a column [x]: the position
    in the source, its two weights and its two indices. *)
Definition p_src (r : F) (i : nat) : F := dmul r (of_int (Z.of_nat i)).

Definition delta2 (r : F) (i : nat) : F :=
  dsub (p_src r i) (dfloor (p_src r i)).

Definition delta1 (r : F) (i : nat) : F := dsub d1 (delta2 r i).

Definition ind1 (r : F) (src_extent i : nat) : Z :=
  keepInRange (to_int (dfloor (p_src r i))) 0 (Z.of_nat src_extent - 1).

Definition ind2 (r : F) (src_extent i : nat) : Z :=
  keepInRange (ind1 r src_extent i + 1) 0 (Z.of_nat src_extent - 1).

(** Lines 74-75. *)
Definition val (src : Array2 T) (height width y x : nat) : F :=
  let x_ratio := ratio (extent1 src) width in
  let y_ratio := ratio (extent0 src) height in
  let dy2 := delta2 y_ratio y in
  let dy1 := delta1 y_ratio y in
  let y_ind1 := ind1 y_ratio (extent0 src) y in
  let y_ind2 := ind2 y_ratio (extent0 src) y in
  let dx2 := delta2 x_ratio x in
  let dx1 := delta1 x_ratio x in
  let x_ind1 := ind1 x_ratio (extent1 src) x in
  let x_ind2 := ind2 x_ratio (extent1 src) x in
  dadd (dadd (dadd (dmul (dmul dx1 dy1) (src_at src y_ind1 x_ind1))
                   (dmul (dmul dx1 dy2) (src_at src y_ind2 x_ind1)))
             (dmul (dmul dx2 dy1) (src_at src y_ind1 x_ind2)))
       (dmul (dmul dx2 dy2) (src_at src y_ind2 x_ind2)).

(** Lines 78-82. *)
Definition all_in_mask (src : Array2 T) (src_mask : Array2 bool)
    (height width y x : nat) : bool :=
  let x_ratio := ratio (extent1 src) width in
  let y_ratio := ratio (extent0 src) height in
  forallb
    (fun ym =>
       forallb (fun xm => at2 false src_mask ym xm)
         (zrange (ind1 x_ratio (extent1 src) x) (ind2 x_ratio (extent1 src) x)))
    (zrange (ind1 y_ratio (extent0 src) y) (ind2 y_ratio (extent0 src) y)).

(** [scaleNoCheck2D_BI<T, mask>]: the destination image, and the
    destination mask (left alone when [mask] is false). *)
Definition scaleNoCheck2D_BI (mask : bool) (src : Array2 T)
    (src_mask : Array2 bool) (dst : Array2 F) (dst_mask : Array2 bool)
    : Array2 F * Array2 bool :=
  let height := extent0 dst in
  let width := extent1 dst in
  ({| extent0 := height; extent1 := width;
      elems := tabulate height (fun y =>
                 tabulate width (fun x => val src height width y x)) |},
   if mask
   then {| extent0 := extent0 dst_mask; extent1 := extent1 dst_mask;
           elems := tabulate height (fun y =>
                      tabulate width (fun x =>
                        all_in_mask src src_mask height width y x)) |}
   else dst_mask).

(** [scale] without masks (lines 106-151): how the call ends and the
    destination after it. *)
Definition scale (src : Array2 T) (dst : Array2 F) (alg : Rescale.Algorithm)
    : result * Array2 F :=
  let height := Z.of_nat (extent0 dst) in
  let width := Z.of_nat (extent1 dst) in
  if (height <? 1)%Z
  then (Raised (ParamOutOfBoundaryError "height"%string false height 1), dst)
  else if (width <? 1)%Z
  then (Raised (ParamOutOfBoundaryError "width"%string false width 1), dst)
  else if ((height =? Z.of_nat (extent0 src))
           && (width =? Z.of_nat (extent1 src)))%Z
  then (Finished,
        {| extent0 := extent0 dst; extent1 := extent1 dst;
           elems := tabulate (extent0 src) (fun y =>
                      tabulate (extent1 src) (fun x =>
                        src_at src (Z.of_nat y) (Z.of_nat x))) |})
  else match alg with
       | Rescale.BilinearInterp =>
           let empty := {| extent0 := 0; extent1 := 0; elems := [] |} in
           (Finished, fst (scaleNoCheck2D_BI false src empty dst empty))
       | _ => (Raised UnknownScalingAlgorithm, dst)
       end.

End Interpolation.

(** The helper as its name reads it, for the concrete inputs. *)
Definition clamp (v low high : Z) : Z :=
  if (v <? low)%Z then low else if (v >? high)%Z then high else v.

Section ScaleChecks.

Context {F : Type} `{DoubleOps F} `{DoubleFloor F}.

Variable T : Type.
Variable cast : T -> F.
Variable keepInRange : Z -> Z -> Z -> Z.

Lemma src_at_row (src : Array2 T) (y : nat) :
  well_formed src ->
  (y < extent0 src)%nat ->
  tabulate (extent1 src) (fun x => src_at cast src (Z.of_nat y) (Z.of_nat x))
    = map cast (nth y (elems src) []).
Proof.
  intros [Hlen Hrows] Hy.
  assert (Hrow : List.length (nth y (elems src) []) = extent1 src).
  { apply (proj1 (Forall_nth _ (elems src)) Hrows). now rewrite Hlen. }
  unfold src_at. rewrite Nat2Z.id, <- Hrow.
  generalize (nth y (elems src) []). intros row.
  apply (nth_ext _ _ d0 d0).
  - now rewrite tabulate_length, length_map.
  - intros i Hi. rewrite tabulate_length in Hi.
    rewrite nth_tabulate by assumption. rewrite Nat2Z.id.
    destruct (nth_error row i) as [v | ] eqn:Hv.
    + symmetry. apply nth_error_nth. now rewrite nth_error_map, Hv.
    + apply nth_error_None in Hv. lia.
Qed.

Lemma src_at_rows (src : Array2 T) :
  well_formed src ->
  tabulate (extent0 src) (fun y =>
    tabulate (extent1 src) (fun x =>
      src_at cast src (Z.of_nat y) (Z.of_nat x)))
    = map (map cast) (elems src).
Proof.
  intros Hwf. pose proof Hwf as [Hlen _].
  apply (nth_ext _ _ [] []).
  - now rewrite tabulate_length, length_map.
  - intros y Hy. rewrite tabulate_length in Hy.
    rewrite nth_tabulate by assumption.
    rewrite (src_at_row Hwf Hy).
    change (@nil F) with (map cast []). now rewrite map_nth.
Qed.

(** X9. [scale] refuses an empty destination before it looks at anything
    else: a height of 0 raises [ParamOutOfBoundaryError("height", false, 0,
    1)], also when the width is 0 too; a width of 0 under a positive height
    raises the same error for ["width"]; the destination is left as it was.
    On a destination with both extents positive that error is never
    raised. *)
Theorem scale_empty_destination (src : Array2 T) (dst : Array2 F)
    (alg : Rescale.Algorithm) :
  (extent0 dst = 0%nat ->
   scale cast keepInRange src dst alg =
     (Raised (ParamOutOfBoundaryError "height" false 0 1), dst)) /\
  ((0 < extent0 dst)%nat -> extent1 dst = 0%nat ->
   scale cast keepInRange src dst alg =
     (Raised (ParamOutOfBoundaryError "width" false 0 1), dst)) /\
  ((0 < extent0 dst)%nat -> (0 < extent1 dst)%nat ->
   forall paramname larger value limit,
     fst (scale cast keepInRange src dst alg) <>
       Raised (ParamOutOfBoundaryError paramname larger value limit)).
Proof.
  unfold scale. cbv zeta. repeat split.
  - intros ->. reflexivity.
  - intros Hh ->.
    destruct (Z.ltb_spec (Z.of_nat (extent0 dst)) 1); [lia | reflexivity].
  - intros Hh Hw paramname larger value limit.
    destruct (Z.ltb_spec (Z.of_nat (extent0 dst)) 1); [lia | ].
    destruct (Z.ltb_spec (Z.of_nat (extent1 dst)) 1); [lia | ].
    destruct (_ && _)%bool; [discriminate | ].
    destruct alg; discriminate.
Qed.

(** X10. When the destination has the shape of the source, [scale] copies:
    whatever the algorithm asked for, also [NearestNeighbour], it returns
    and the destination holds the pixels of the source converted to
    [double]. *)
Theorem scale_same_shape_copies (src : Array2 T) (dst : Array2 F)
    (alg : Rescale.Algorithm) :
  well_formed src ->
  (0 < extent0 dst)%nat ->
  (0 < extent1 dst)%nat ->
  extent0 dst = extent0 src ->
  extent1 dst = extent1 src ->
  scale cast keepInRange src dst alg =
    (Finished,
     {| extent0 := extent0 src; extent1 := extent1 src;
        elems := map (map cast) (elems src) |}).
Proof.
  intros Hwf Hh Hw He0 He1. unfold scale. cbv zeta.
  destruct (Z.ltb_spec (Z.of_nat (extent0 dst)) 1); [lia | ].
  destruct (Z.ltb_spec (Z.of_nat (extent1 dst)) 1); [lia | ].
  rewrite He0, He1, !Z.eqb_refl. cbn [andb].
  now rewrite (src_at_rows Hwf).
Qed.

(** X11. [scale] has no nearest-neighbour rescaling: asked for
    [NearestNeighbour] it returns exactly when the destination is not empty
    and has the shape of the source (the copy); on any other non-empty
    destination it raises [UnknownScalingAlgorithm] and leaves the
    destination as it was. *)
Theorem scale_nearest_neighbour (src : Array2 T) (dst : Array2 F) :
  (fst (scale cast keepInRange src dst Rescale.NearestNeighbour) = Finished
   <-> (0 < extent0 dst)%nat /\ (0 < extent1 dst)%nat /\
       extent0 dst = extent0 src /\ extent1 dst = extent1 src) /\
  ((0 < extent0 dst)%nat -> (0 < extent1 dst)%nat ->
   extent0 dst <> extent0 src \/ extent1 dst <> extent1 src ->
   scale cast keepInRange src dst Rescale.NearestNeighbour =
     (Raised UnknownScalingAlgorithm, dst)).
Proof.
  unfold scale. cbv zeta.
  destruct (Z.ltb_spec (Z.of_nat (extent0 dst)) 1) as [Hh | Hh].
  { split; [split; [discriminate | lia] | lia]. }
  destruct (Z.ltb_spec (Z.of_nat (extent1 dst)) 1) as [Hw | Hw].
  { split; [split; [discriminate | lia] | lia]. }
  destruct (Z.eqb_spec (Z.of_nat (extent0 dst)) (Z.of_nat (extent0 src)))
    as [He0 | He0];
    destruct (Z.eqb_spec (Z.of_nat (extent1 dst)) (Z.of_nat (extent1 src)))
    as [He1 | He1]; cbn [andb fst];
    (split; [split; [intros He; try discriminate He; lia | intros; try reflexivity; lia]
            | intros _ _ Hne; try reflexivity; lia]).
Qed.

End ScaleChecks.

(** ** The mask of the bilinear interpolation

    The indices come out of [tca::keepInRange]; with it clamping its first
    argument to [low, high], they are in the source whatever position the
    arithmetic on [double] arrives at. *)

Section BilinearMask.

Context {F : Type} `{DoubleOps F} `{DoubleFloor F}.

Variable T : Type.
Variable cast : T -> F.
Variable keepInRange : Z -> Z -> Z -> Z.

Hypothesis keepInRange_spec :
  forall v low high : Z, (low <= high)%Z ->
    keepInRange v low high = Z.max low (Z.min v high).

Lemma ind1_in_source (r : F) (n_src i : nat) :
  (1 <= n_src)%nat ->
  (0 <= ind1 keepInRange r n_src i <= Z.of_nat n_src - 1)%Z.
Proof.
  intros Hs. unfold ind1. rewrite keepInRange_spec by lia. lia.
Qed.

Lemma ind2_next (r : F) (n_src i : nat) :
  (1 <= n_src)%nat ->
  ind2 keepInRange r n_src i
    = Z.min (ind1 keepInRange r n_src i + 1) (Z.of_nat n_src - 1).
Proof.
  intros Hs. pose proof (ind1_in_source r i Hs).
  unfold ind2. rewrite keepInRange_spec by lia. lia.
Qed.

Lemma zrange_one (a : Z) : zrange a a = [a].
Proof.
  unfold zrange. replace (a - a + 1)%Z with 1%Z by lia.
  change (Z.to_nat 1) with 1%nat. cbn [seq map].
  f_equal. lia.
Qed.

Lemma zrange_two (a : Z) : zrange a (a + 1) = [a; (a + 1)%Z].
Proof.
  unfold zrange. replace (a + 1 - a + 1)%Z with 2%Z by lia.
  change (Z.to_nat 2) with 2%nat. cbn [seq map].
  f_equal; lia.
Qed.

Lemma zrange_ind (r : F) (n_src i : nat) :
  (1 <= n_src)%nat ->
  let i1 := ind1 keepInRange r n_src i in
  let i2 := ind2 keepInRange r n_src i in
  (i2 = i1 /\ zrange i1 i2 = [i1]) \/
  (i2 = (i1 + 1)%Z /\ zrange i1 i2 = [i1; i2]).
Proof.
  intros Hs i1 i2.
  pose proof (ind1_in_source r i Hs) as H1.
  pose proof (ind2_next r i Hs) as H2.
  fold i1 in H1, H2. fold i2 in H2.
  destruct (Z.eq_dec i1 (Z.of_nat n_src - 1)) as [Hlast | Hin].
  - left. assert (i2 = i1) as -> by lia. split; [reflexivity | ].
    apply zrange_one.
  - right. assert (i2 = (i1 + 1)%Z) as -> by lia. split; [reflexivity | ].
    apply zrange_two.
Qed.

(** X14. The mask the interpolation writes: a destination pixel is valid
    exactly when the source pixels on rows [y_ind1], [y_ind2] and columns
    [x_ind1], [x_ind2] are all valid, whatever their weights: a neighbour of
    weight zero that is not valid makes the destination pixel not valid.
    The source has a pixel at least and the destination two rows and two
    columns at least, which keeps the two ratios finite. *)
Theorem bilinear_mask (src : Array2 T) (dst : Array2 F)
    (src_mask dst_mask : Array2 bool) (y x : nat) :
  (1 <= extent0 src)%nat -> (1 <= extent1 src)%nat ->
  (2 <= extent0 dst)%nat -> (2 <= extent1 dst)%nat ->
  (y < extent0 dst)%nat -> (x < extent1 dst)%nat ->
  let y_ind1 := ind1 keepInRange (ratio (extent0 src) (extent0 dst))
                     (extent0 src) y in
  let y_ind2 := ind2 keepInRange (ratio (extent0 src) (extent0 dst))
                     (extent0 src) y in
  let x_ind1 := ind1 keepInRange (ratio (extent1 src) (extent1 dst))
                     (extent1 src) x in
  let x_ind2 := ind2 keepInRange (ratio (extent1 src) (extent1 dst))
                     (extent1 src) x in
  at2 false (snd (scaleNoCheck2D_BI cast keepInRange true src src_mask dst
                    dst_mask)) (Z.of_nat y) (Z.of_nat x)
    = (at2 false src_mask y_ind1 x_ind1 && at2 false src_mask y_ind1 x_ind2
       && at2 false src_mask y_ind2 x_ind1
       && at2 false src_mask y_ind2 x_ind2)%bool.
Proof.
  intros src_rows src_cols _ _ Hy Hx y_ind1 y_ind2 x_ind1 x_ind2.
  subst y_ind1 y_ind2 x_ind1 x_ind2.
  unfold scaleNoCheck2D_BI, at2 at 1. cbn [snd elems].
  rewrite !Nat2Z.id. rewrite nth_tabulate by assumption.
  rewrite nth_tabulate by assumption.
  unfold all_in_mask. cbv zeta.
  destruct (zrange_ind (ratio (extent0 src) (extent0 dst)) y src_rows)
    as [[Ey ->] | [Ey ->]];
    destruct (zrange_ind (ratio (extent1 src) (extent1 dst)) x src_cols)
    as [[Ex ->] | [Ex ->]];
    cbn [forallb]; try rewrite Ey; try rewrite Ex;
    repeat match goal with
           | |- context [at2 false src_mask ?a ?b] =>
               destruct (at2 false src_mask a b)
           end; reflexivity.
Qed.

End BilinearMask.

End ip.

(** * The further properties at concrete inputs *)

(** A 2 x 2 image of integer pixels, its mask, and blank destinations. *)
Definition image22 : ip.Array2 Z :=
  {| ip.extent0 := 2; ip.extent1 := 2;
     ip.elems := [[0%Z; 10%Z]; [20%Z; 30%Z]] |}.

Definition mask22 : ip.Array2 bool :=
  {| ip.extent0 := 2; ip.extent1 := 2;
     ip.elems := [[false; true]; [true; true]] |}.

Definition blank (A : Type) (height width : nat) : ip.Array2 A :=
  {| ip.extent0 := height; ip.extent1 := width; ip.elems := [] |}.

Lemma clamp_spec (v low high : Z) :
  (low <= high)%Z -> ip.clamp v low high = Z.max low (Z.min v high).
Proof.
  intros Hlh. unfold ip.clamp.
  destruct (Z.ltb_spec v low); [lia | ].
  destruct (Z.gtb_spec v high); lia.
Qed.

(** [floor] and the conversion to [int] on binary64. *)
Lemma float_floor_examples :
  float_floor 2.5 = 2%float /\ float_floor (-2.5) = (-3)%float /\
  float_floor 0x1.fffffffffffffp-1 = 0%float /\
  float_floor (-0x1p-1074) = (-1)%float /\
  float_floor 7 = 7%float /\ float_floor 0x1p+60 = 0x1p+60%float /\
  float_to_int 3 = 3%Z /\ float_to_int (-3) = (-3)%Z /\
  float_to_int 0 = 0%Z.
Proof.
  repeat split; vm_compute; reflexivity.
Qed.

(** The interpolation on binary64 rounds as the code does.  From 2 rows to
    50, the last row is at [fl(1/49) * 49 = 0.99999999999999989]: its first
    index is 0, not 1, and the pixels written are just below those of the
    last source row.  A constant image is not reproduced exactly. *)
Lemma bilinear_binary64_examples :
  ip.p_src (ip.ratio 2 50) 49 = 0x1.fffffffffffffp-1%float /\
  ip.ind1 ip.clamp (ip.ratio 2 50) 2 49 = 0%Z /\
  nth 49 (ip.elems (snd (ip.scale float_of_Z ip.clamp image22
                           (blank float 50 2) ip.Rescale.BilinearInterp))) []
    = [0x1.3ffffffffffffp+4%float; 0x1.dffffffffffffp+4%float] /\
  ip.elems (snd (ip.scale float_of_Z ip.clamp
                   {| ip.extent0 := 2; ip.extent1 := 2;
                      ip.elems := [[255%Z; 255%Z]; [255%Z; 255%Z]] |}
                   (blank float 2 4) ip.Rescale.BilinearInterp))
    = [[255%float; 0x1.fe00000000001p+7%float; 255%float; 255%float];
       [255%float; 0x1.fe00000000001p+7%float; 255%float; 255%float]].
Proof.
  repeat split; vm_compute; reflexivity.
Qed.

Lemma mStep_forgets_model_witness :
  mStep scenario_A (machine1 5%float 6%float 7%float) =
  mStep scenario_A (machine1 1%float 0%float 1%float).
Proof.
  apply (@mStep_forgets_model float Binary64 scenario_A
           (machine1 1%float 0%float 1%float)); reflexivity.
Defined.

Lemma initialization_copies_prior_witness :
  fst (fst (initialization scenario_A (machine1 5%float 6%float 7%float)))
    = Returned /\
  snd (initialization scenario_A (machine1 5%float 6%float 7%float))
    = machine1 1%float 0%float 1%float.
Proof.
  apply (@initialization_copies_prior float Binary64 scenario_A);
    try reflexivity.
  unfold well_shaped. cbn. repeat split; repeat constructor.
Defined.

Lemma low_occupancy_variance_witness :
  PrimFloat.ltb (get (ss_n (m_ss scenario_C)) 0)
    (m_mean_var_update_responsibilities_threshold scenario_C) = true /\
  get2 (variances (snd (mStep scenario_C (machine1 1%float 5%float 5%float))))
       0 0 = (-1)%float.
Proof.
  split; [reflexivity | ].
  destruct (@low_occupancy_variance float Binary64 scenario_C
              (machine1 1%float 2%float 1%float)
              (machine1 1%float 5%float 5%float) 0 0
              eq_refl eq_refl eq_refl (Nat.lt_0_succ 0) (Nat.lt_0_succ 0)
              eq_refl) as [_ ->].
  vm_compute. reflexivity.
Defined.

Lemma scale_same_shape_copies_witness :
  ip.scale float_of_Z ip.clamp image22 (blank float 2 2)
           ip.Rescale.NearestNeighbour
    = (ip.Finished,
       {| ip.extent0 := 2; ip.extent1 := 2;
          ip.elems := [[0%float; 10%float]; [20%float; 30%float]] |}).
Proof.
  rewrite (@ip.scale_same_shape_copies float Binary64 Binary64_floor Z
             float_of_Z ip.clamp image22 (blank float 2 2)
             ip.Rescale.NearestNeighbour).
  - reflexivity.
  - unfold ip.well_formed. cbn. repeat split; repeat constructor.
  - cbn. lia.
  - cbn. lia.
  - reflexivity.
  - reflexivity.
Defined.

Lemma bilinear_mask_witness :
  ip.at2 false
    (snd (ip.scaleNoCheck2D_BI float_of_Z ip.clamp true image22
            mask22 (blank float 3 3) (blank bool 3 3))) 1 1 = false /\
  ip.at2 false
    (snd (ip.scaleNoCheck2D_BI float_of_Z ip.clamp true image22
            mask22 (blank float 3 3) (blank bool 3 3))) 2 2 = true /\
  ip.at2 false
    (snd (ip.scaleNoCheck2D_BI float_of_Z ip.clamp true image22
            mask22 (blank float 50 2) (blank bool 50 2))) 49 0 = false.
Proof.
  split; [ | split].
  - refine (eq_trans
              (@ip.bilinear_mask float Binary64 Binary64_floor Z float_of_Z
                 ip.clamp clamp_spec image22 (blank float 3 3)
                 mask22 (blank bool 3 3) 1%nat 1%nat
                 ltac:(cbn; lia) ltac:(cbn; lia) ltac:(cbn; lia)
                 ltac:(cbn; lia) ltac:(cbn; lia) ltac:(cbn; lia)) _).
    vm_compute. reflexivity.
  - refine (eq_trans
              (@ip.bilinear_mask float Binary64 Binary64_floor Z float_of_Z
                 ip.clamp clamp_spec image22 (blank float 3 3)
                 mask22 (blank bool 3 3) 2%nat 2%nat
                 ltac:(cbn; lia) ltac:(cbn; lia) ltac:(cbn; lia)
                 ltac:(cbn; lia) ltac:(cbn; lia) ltac:(cbn; lia)) _).
    vm_compute. reflexivity.
  - refine (eq_trans
              (@ip.bilinear_mask float Binary64 Binary64_floor Z float_of_Z
                 ip.clamp clamp_spec image22 (blank float 50 2)
                 mask22 (blank bool 50 2) 49%nat 0%nat
                 ltac:(cbn; lia) ltac:(cbn; lia) ltac:(cbn; lia)
                 ltac:(cbn; lia) ltac:(cbn; lia) ltac:(cbn; lia)) _).
    vm_compute. reflexivity.
Defined.
